(** * Design-pattern lectures: a shallow embedding of the example code

    Each lecture of the book carries a few toy Python classes.  Every
    lecture is embedded in a module of its own: instances live in a heap
    (a list indexed by object identity), methods are state-passing
    functions that may raise, [print] appends a line to the console.
    Python's numbers are embedded once, in [Py]: unbounded integers as
    [Z], floats as IEEE 754 binary64 (the kernel's [float]). *)

From Stdlib Require Import ZArith String Floats Lia.
From stdpp Require Import base option list gmap strings.

Set Warnings "-inexact-float,-register-all".

(* ===================================================================== *)
(** * Part I: the embedding                                               *)
(* ===================================================================== *)

(** ** Python values, numbers and exceptions *)

Module Py.

Local Open Scope Z_scope.

(** The built-in exceptions the examples can raise. *)
Inductive exn : Type :=
| TypeError
| ValueError
| AttributeError
| OverflowError
| RecursionError
| OSError.

(** The outcome of evaluating an expression: a value, or an exception. *)
Inductive result (A : Type) : Type :=
| Ok (a : A)
| Raise (e : exn).

Arguments Ok {A} a.
Arguments Raise {A} e.

Definition bind {A B : Type} (r : result A) (k : A -> result B) : result B :=
  match r with
  | Ok a => k a
  | Raise e => Raise e
  end.

(** Object identity: what [id(x)] returns and [is] compares. *)
Abbreviation loc := nat (only parsing).

(** Code that reads and writes a store [S] and may raise: the store at the
    moment of the [raise] is kept, as in Python. *)
Definition M (S A : Type) : Type := S -> result A * S.

Definition ret {S A : Type} (a : A) : M S A := fun s => (Ok a, s).

Definition raise {S A : Type} (e : exn) : M S A := fun s => (Raise e, s).

Definition mbind {S A B : Type} (m : M S A) (k : A -> M S B) : M S B :=
  fun s =>
    match m s with
    | (Ok a, s') => k a s'
    | (Raise e, s') => (Raise e, s')
    end.

Definition lift {S A : Type} (r : result A) : M S A := fun s => (r, s).

Definition get {S : Type} : M S S := fun s => (Ok s, s).

(** A Python number: [int] is unbounded, [float] is binary64. *)
Inductive number : Type :=
| NInt (z : Z)
| NFloat (f : float).

(** [float(z)] for an [int]: the nearest binary64 (ties to even), and
    [OverflowError] when [z] is too large for a float. *)
Definition float_of_int (z : Z) : result float :=
  match binary_normalize prec emax z 0 false with
  | S754_infinity _ => Raise OverflowError
  | sf => Ok (SF2Prim sf)
  end.

(** The binary operators on numbers: two ints stay exact, a mixed pair is
    computed on floats after converting the int. *)
Definition arith (fz : Z -> Z -> Z) (ff : float -> float -> float)
    (x y : number) : result number :=
  match x, y with
  | NInt a, NInt b => Ok (NInt (fz a b))
  | NInt a, NFloat g => bind (float_of_int a) (fun f => Ok (NFloat (ff f g)))
  | NFloat f, NInt b => bind (float_of_int b) (fun g => Ok (NFloat (ff f g)))
  | NFloat f, NFloat g => Ok (NFloat (ff f g))
  end.

Definition add : number -> number -> result number := arith Z.add PrimFloat.add.

Definition mul : number -> number -> result number := arith Z.mul PrimFloat.mul.

(** Comparing a float with an int is exact in Python: no conversion, the
    float's value [m * 2^e] is compared with the integer.  [None] for NaN. *)
Definition compare_float_int (f : float) (z : Z) : option comparison :=
  match Prim2SF f with
  | S754_nan => None
  | S754_infinity s => Some (if s then Lt else Gt)
  | S754_zero _ => Some (0 ?= z)
  | S754_finite s m e =>
      let v := cond_Zopp s (Z.pos m) in
      if 0 <=? e then Some (v * 2 ^ e ?= z) else Some (v ?= z * 2 ^ (- e))
  end.

(** [x < y] on numbers. *)
Definition lt (x y : number) : bool :=
  match x, y with
  | NInt a, NInt b => a <? b
  | NFloat f, NFloat g => PrimFloat.ltb f g
  | NFloat f, NInt b =>
      match compare_float_int f b with Some Lt => true | _ => false end
  | NInt a, NFloat g =>
      match compare_float_int g a with Some Gt => true | _ => false end
  end.

(** The data a toy attribute holds: [None], a bool, a number, a string, or
    a tuple of such values. *)
Inductive value : Type :=
| VNone
| VBool (b : bool)
| VNum (n : number)
| VStr (s : string)
| VTuple (vs : list value).

(** [str(b)] for a bool, as [print] shows it. *)
Definition str_of_bool (b : bool) : string :=
  if b then "True"%string else "False"%string.

End Py.

Declare Scope py_scope.
Delimit Scope py_scope with py.
Notation "x <- m ;; k" := (Py.mbind m (fun x => k))
  (at level 100, m at next level, right associativity) : py_scope.
Notation "m ;;; k" := (Py.mbind m (fun _ => k))
  (at level 100, right associativity) : py_scope.

(** ** Prototype lecture: [ProductPrototype] *)

Module Prototype.
Import Py.

(** An instance is its [__dict__]: attribute names to values. *)
Abbreviation instance := (gmap string value).

Abbreviation heap := (list instance).

(** [object.__new__]: a fresh instance with an empty [__dict__]. *)
Definition new_object : M heap loc :=
  fun h => (Ok (length h), h ++ [∅]).

(** [self.a = v] *)
Definition setattr (self : loc) (a : string) (v : value) : M heap unit :=
  fun h => (Ok tt, alter (insert a v) self h).

(** [self.a] *)
Definition getattr (self : loc) (a : string) : M heap value :=
  fun h =>
    match h !! self ≫= (fun o => o !! a) with
    | Some v => (Ok v, h)
    | None => (Raise AttributeError, h)
    end.

(** [ProductPrototype.__init__] *)
Definition init (self : loc) (name price : value) : M heap unit :=
  (setattr self "name" name ;;;
   setattr self "price" price)%py.

(** The call [ProductPrototype(name, price)]. *)
Definition ProductPrototype (name price : value) : M heap loc :=
  (self <- new_object ;;
   init self name price ;;;
   ret self)%py.

(** [copy.deepcopy] on attribute data: atoms are returned as they are, a
    tuple is rebuilt from the copies of its items. *)
Fixpoint deepcopy_value (v : value) : value :=
  match v with
  | VTuple vs => VTuple (map deepcopy_value vs)
  | _ => v
  end.

(** [copy.deepcopy] on an instance: an empty instance of the same class is
    made, and its [__dict__] is updated with the deep copy of the source's. *)
Definition deepcopy (x : loc) : M heap loc :=
  fun h =>
    match h !! x with
    | Some state =>
        let y := length h in
        (Ok y, h ++ [deepcopy_value <$> state])
    | None => (Raise AttributeError, h)
    end.

(** [ProductPrototype.clone] *)
Definition clone (self : loc) : M heap loc := deepcopy self.

End Prototype.

(** ** Singleton lecture: [Logger] *)

Module Singleton.
Import Py.

(** A file object: the text written to it so far, and whether it is closed. *)
Record file : Type := { written : list string; closed : bool }.

(** A [Logger] instance: its [_log_file] attribute, absent until assigned. *)
Record Logger : Type := { _log_file : option loc }.

(** The interpreter's state: the class variable [Logger._instance] ([None]
    for Python's [None]), the [Logger] instances made so far, the file
    objects opened so far, and the console. *)
Record world : Type := {
  _instance : option loc;
  heap : list Logger;
  files : list file;
  stdout : list string
}.

(** The state right after the [class Logger] statement. *)
Definition initial : world :=
  {| _instance := None; heap := []; files := []; stdout := [] |}.

(** [super().__new__(cls)]: a fresh instance without attributes. *)
Definition object_new : M world loc :=
  fun w =>
    (Ok (length (heap w)),
     {| _instance := _instance w; heap := heap w ++ [{| _log_file := None |}];
        files := files w; stdout := stdout w |}).

(** [cls._instance = v] *)
Definition set_instance (v : option loc) : M world unit :=
  fun w =>
    (Ok tt,
     {| _instance := v; heap := heap w; files := files w; stdout := stdout w |}).

(** [open("application.log", "a")]: the operating system grants the file
    ([can_open]) or the call raises [OSError]. *)
Definition open (can_open : bool) : M world loc :=
  fun w =>
    if can_open then
      (Ok (length (files w)),
       {| _instance := _instance w; heap := heap w;
          files := files w ++ [{| written := []; closed := false |}];
          stdout := stdout w |})
    else (Raise OSError, w).

(** [self._log_file = f] *)
Definition set_log_file (self : loc) (f : loc) : M world unit :=
  fun w =>
    (Ok tt,
     {| _instance := _instance w;
        heap := alter (fun _ => {| _log_file := Some f |}) self (heap w);
        files := files w; stdout := stdout w |}).

(** [Logger.__new__(cls)]; the value returned is that of [cls._instance]. *)
Definition new (can_open : bool) : M world (option loc) :=
  (w <- get ;;
   match _instance w with
   | None =>
       self <- object_new ;;
       set_instance (Some self) ;;;
       f <- open can_open ;;
       set_log_file self f
   | Some _ => ret tt
   end ;;;
   w' <- get ;;
   ret (_instance w'))%py.

(** The call [Logger()]: [__new__], then the inherited [object.__init__],
    which does nothing. *)
Definition Logger_call (can_open : bool) : M world (option loc) := new can_open.

(** The line feed character as a string. *)
Definition newline : string := String (Ascii.ascii_of_nat 10) EmptyString.

(** [Logger.log]: the message and a line feed are written to
    [self._log_file]; writing to a closed file raises [ValueError]. *)
Definition log (self : loc) (message : string) : M world unit :=
  fun w =>
    match heap w !! self ≫= _log_file with
    | Some f =>
        match files w !! f with
        | Some {| written := text; closed := false |} =>
            (Ok tt,
             {| _instance := _instance w; heap := heap w;
                files :=
                  <[f := {| written := text ++ [(message ++ newline)%string];
                            closed := false |}]> (files w);
                stdout := stdout w |})
        | _ => (Raise ValueError, w)
        end
    | None => (Raise AttributeError, w)
    end.

(** [Logger.close]: [self._log_file.close()] *)
Definition close (self : loc) : M world unit :=
  fun w =>
    match heap w !! self ≫= _log_file with
    | Some f =>
        (Ok tt,
         {| _instance := _instance w; heap := heap w;
            files :=
              alter (fun x => {| written := written x; closed := true |}) f
                (files w);
            stdout := stdout w |})
    | None => (Raise AttributeError, w)
    end.

(** A sequence of evaluations of [Logger()], one per element of [env] (the
    operating system's answer, should that evaluation open the file); an
    evaluation that raises does not stop the later ones. *)
Fixpoint calls (env : list bool) (w : world)
    : list (result (option loc)) * world :=
  match env with
  | [] => ([], w)
  | can_open :: env' =>
      let (r, w') := Logger_call can_open w in
      let (rs, w'') := calls env' w' in
      (r :: rs, w'')
  end.

(** [print(line)] *)
Definition print (line : string) : M world unit :=
  fun w =>
    (Ok tt,
     {| _instance := _instance w; heap := heap w; files := files w;
        stdout := stdout w ++ [line] |}).

(** [a is b] on what [Logger()] returns. *)
Definition is_ (a b : option loc) : bool := bool_decide (a = b).

(** The lecture's cells: two loggers, then [print(logger1 is logger2)]. *)
Definition demo (can_open1 can_open2 : bool) : M world unit :=
  (logger1 <- Logger_call can_open1 ;;
   logger2 <- Logger_call can_open2 ;;
   print (str_of_bool (is_ logger1 logger2)))%py.

(** Client code: [Logger().log(message)], through a reference obtained on
    the spot. *)
Definition log_message (can_open : bool) (message : string) : M world unit :=
  (logger <- Logger_call can_open ;;
   match logger with
   | Some self => log self message
   | None => raise AttributeError
   end)%py.

(** A run of such statements, stopped by the first exception. *)
Fixpoint log_messages (msgs : list (bool * string)) : M world unit :=
  match msgs with
  | [] => ret tt
  | (can_open, message) :: msgs' =>
      (log_message can_open message ;;; log_messages msgs')%py
  end.

(** What [log] writes for a message. *)
Definition log_entry (message : string) : string := (message ++ newline)%string.

(** The state once the first [Logger()] has opened the file: the instance,
    its file holding [text], nothing on the console. *)
Definition opened (text : list string) (is_closed : bool) : world :=
  {| _instance := Some 0;
     heap := [{| _log_file := Some 0 |}];
     files := [{| written := text; closed := is_closed |}];
     stdout := [] |}.

(** Client code: [Logger().close()]. *)
Definition close_logger (can_open : bool) : M world unit :=
  (logger <- Logger_call can_open ;;
   match logger with
   | Some self => close self
   | None => raise AttributeError
   end)%py.

End Singleton.

(** ** Factory Method lecture: employees and hiring managers *)

Module Factory.
Import Py.

(** The concrete subclasses of [Employee]. *)
Inductive employee_class : Type :=
| FullTimeEmployee
| PartTimeEmployee
| Contractor.

(** An [Employee] instance: its class and the two attributes
    [Employee.__init__] assigns. *)
Record Employee : Type := {
  class : employee_class;
  name : value;
  salary : number
}.

Abbreviation heap := (list Employee).

(** The call [cls(name, salary)] for a subclass [cls] of [Employee]. *)
Definition Employee_call (cls : employee_class) (name : value) (salary : number)
    : M heap loc :=
  fun h =>
    (Ok (length h), h ++ [{| class := cls; name := name; salary := salary |}]).

(** Reading the instance behind [self]. *)
Definition deref (self : loc) : M heap Employee :=
  fun h =>
    match h !! self with
    | Some e => (Ok e, h)
    | None => (Raise AttributeError, h)
    end.

(** [self.calculate_bonus()], dispatched on the class of [self]. *)
Definition calculate_bonus (self : loc) : M heap number :=
  (e <- deref self ;;
   match class e with
   | FullTimeEmployee => lift (mul (salary e) (NFloat 0.1))
   | PartTimeEmployee => lift (mul (salary e) (NFloat 0.05))
   | Contractor => ret (NInt 0)
   end)%py.

(** [self.type_name()] *)
Definition type_name (self : loc) : M heap string :=
  (e <- deref self ;;
   match class e with
   | FullTimeEmployee => ret "FullTimeEmployee"%string
   | PartTimeEmployee => ret "PartTimeEmployee"%string
   | Contractor => ret "Contractor"%string
   end)%py.

(** The concrete subclasses of [HiringManager]; they have no attributes. *)
Inductive manager : Type :=
| HRManager
| Recruiter.

(** [self.make_employee(name, salary)], dispatched on the manager's class. *)
Definition make_employee (self : manager) (name : value) (salary : number)
    : M heap loc :=
  match self with
  | HRManager => Employee_call FullTimeEmployee name salary
  | Recruiter =>
      if lt salary (NInt 50000)
      then Employee_call PartTimeEmployee name salary
      else Employee_call Contractor name salary
  end.

(** The lecture's hiring cells: three hires, three bonuses, and per printed
    line the three values it interpolates (name, bonus, type name). *)
Definition demo : M heap (list (value * number * string)) :=
  (let hr_manager := HRManager in
   let recruiter := Recruiter in
   employee1 <- make_employee hr_manager (VStr "John") (NInt 60000) ;;
   employee2 <- make_employee recruiter (VStr "Alice") (NInt 40000) ;;
   employee3 <- make_employee recruiter (VStr "Bob") (NInt 80000) ;;
   bonus1 <- calculate_bonus employee1 ;;
   bonus2 <- calculate_bonus employee2 ;;
   bonus3 <- calculate_bonus employee3 ;;
   e1 <- deref employee1 ;; t1 <- type_name employee1 ;;
   e2 <- deref employee2 ;; t2 <- type_name employee2 ;;
   e3 <- deref employee3 ;; t3 <- type_name employee3 ;;
   ret [(name e1, bonus1, t1); (name e2, bonus2, t2); (name e3, bonus3, t3)])%py.

End Factory.

(** ** Decorator lecture: beverages and add-ons *)

Module Decorator.
Import Py.

(** The [Beverage] interface.  A beverage of type [B] is a handle on an
    object whose state lives in a store [W]; its two methods may read and
    write that store and may raise. *)
Class Beverage (W B : Type) : Type := {
  cost : B -> M W number;
  description : B -> M W string
}.

(** [Espresso] has no attributes. *)
Inductive Espresso : Type := Espresso_call.

#[export] Instance Espresso_Beverage (W : Type) : Beverage W Espresso := {|
  cost := fun _ => ret (NFloat 1.99);
  description := fun _ => ret "Espresso"%string
|}.

(** The concrete subclasses of [AddOnDecorator]. *)
Inductive addon : Type :=
| MilkDecorator
| MochaDecorator.

(** An [AddOnDecorator] instance: its class, and the [_beverage] attribute
    [AddOnDecorator.__init__] assigns. *)
Record AddOnDecorator (B : Type) : Type := {
  class : addon;
  _beverage : B
}.

Arguments class {B} _.
Arguments _beverage {B} _.

(** The call [cls(beverage)] for a subclass [cls] of [AddOnDecorator]. *)
Definition AddOnDecorator_call {W B : Type} (cls : addon) (beverage : B)
    : M W (AddOnDecorator B) :=
  ret {| class := cls; _beverage := beverage |}.

Definition AddOn_cost {W B : Type} `{!Beverage W B} (self : AddOnDecorator B)
    : M W number :=
  match class self with
  | MilkDecorator =>
      (c <- cost (_beverage self) ;; lift (add c (NFloat 0.50)))%py
  | MochaDecorator =>
      (c <- cost (_beverage self) ;; lift (add c (NFloat 0.75)))%py
  end.

Definition AddOn_description {W B : Type} `{!Beverage W B}
    (self : AddOnDecorator B) : M W string :=
  match class self with
  | MilkDecorator =>
      (d <- description (_beverage self) ;; ret (d ++ ", Milk")%string)%py
  | MochaDecorator =>
      (d <- description (_beverage self) ;; ret (d ++ ", Mocha")%string)%py
  end.

#[export] Instance AddOnDecorator_Beverage (W B : Type) `{!Beverage W B}
    : Beverage W (AddOnDecorator B) := {|
  cost := AddOn_cost;
  description := AddOn_description
|}.

(** The coffee-shop cell: per printed line, the description and the cost it
    interpolates. *)
Definition demo {W : Type} : M W (list (string * number)) :=
  (let espresso := Espresso_call in
   d1 <- description espresso ;; c1 <- cost espresso ;;
   espresso_with_milk <- AddOnDecorator_call MilkDecorator espresso ;;
   d2 <- description espresso_with_milk ;; c2 <- cost espresso_with_milk ;;
   espresso_with_milk_and_mocha <-
     AddOnDecorator_call MochaDecorator espresso_with_milk ;;
   d3 <- description espresso_with_milk_and_mocha ;;
   c3 <- cost espresso_with_milk_and_mocha ;;
   ret [(d1, c1); (d2, c2); (d3, c3)])%py.

(** What each add-on appends to the description. *)
Definition suffix (cls : addon) : string :=
  match cls with
  | MilkDecorator => ", Milk"%string
  | MochaDecorator => ", Mocha"%string
  end.

(** What each add-on adds to the cost. *)
Definition price (cls : addon) : number :=
  match cls with
  | MilkDecorator => NFloat 0.50
  | MochaDecorator => NFloat 0.75
  end.

(** The strings of a list, one after the other. *)
Definition join (l : list string) : string := foldr String.append ""%string l.

(** A beverage under [n] decorators. *)
Fixpoint Stack (n : nat) (B : Type) : Type :=
  match n with
  | O => B
  | S n' => AddOnDecorator (Stack n' B)
  end.

(** The stack implements the interface, layer by layer. *)
Definition Stack_Beverage (W B : Type) (HB : Beverage W B) (n : nat)
    : Beverage W (Stack n B) :=
  (fix go (n : nat) : Beverage W (Stack n B) :=
     match n with
     | O => HB
     | S n' => @AddOnDecorator_Beverage W (Stack n' B) (go n')
     end) n.

(** [chain] lists decorator classes from the outermost to the innermost:
    [decorate [c1; c2] b] is the object [c1(c2(b))]. *)
Fixpoint decorate {B : Type} (chain : list addon) (b : B)
    : Stack (length chain) B :=
  match chain with
  | [] => b
  | cls :: chain' => {| class := cls; _beverage := decorate chain' b |}
  end.

End Decorator.

(** ** Builder lecture: [Product], [Builder], [MealBuilder] *)

Module Builder.
Import Py.

Record Product : Type := { part1 : value; part2 : value; part3 : value }.

(** What the heap holds: a [Product] with its three parts, a [Builder] with
    its [product] attribute, a [MealBuilder] with its [builder] attribute. *)
Inductive object : Type :=
| OProduct (p : Product)
| OBuilder (product : loc)
| OMealBuilder (builder : loc).

Abbreviation heap := (list object).

Definition alloc (o : object) : M heap loc :=
  fun h => (Ok (length h), h ++ [o]).

(** The call [Product()]. *)
Definition Product_call : M heap loc :=
  alloc (OProduct {| part1 := VNone; part2 := VNone; part3 := VNone |}).

(** The call [Builder()]: [__init__] makes the product.  (An instance is
    stored once [__init__] has computed its attributes.) *)
Definition Builder_call : M heap loc :=
  (product <- Product_call ;; alloc (OBuilder product))%py.

(** [self.product] on a [Builder]. *)
Definition get_product_attr (self : loc) : M heap loc :=
  fun h =>
    match h !! self with
    | Some (OBuilder product) => (Ok product, h)
    | _ => (Raise AttributeError, h)
    end.

(** [p.part1 = v], [p.part2 = v], [p.part3 = v] on a [Product]. *)
Definition set_part (upd : Product -> Product) (p : loc) : M heap unit :=
  fun h =>
    match h !! p with
    | Some (OProduct x) => (Ok tt, <[p := OProduct (upd x)]> h)
    | _ => (Raise AttributeError, h)
    end.

Definition build_part1 (self : loc) (v : value) : M heap unit :=
  (p <- get_product_attr self ;;
   set_part (fun x => {| part1 := v; part2 := part2 x; part3 := part3 x |}) p)%py.

Definition build_part2 (self : loc) (v : value) : M heap unit :=
  (p <- get_product_attr self ;;
   set_part (fun x => {| part1 := part1 x; part2 := v; part3 := part3 x |}) p)%py.

Definition build_part3 (self : loc) (v : value) : M heap unit :=
  (p <- get_product_attr self ;;
   set_part (fun x => {| part1 := part1 x; part2 := part2 x; part3 := v |}) p)%py.

(** [Builder.get_product] *)
Definition get_product (self : loc) : M heap loc := get_product_attr self.

(** The call [MealBuilder()]: [__init__] makes the builder. *)
Definition MealBuilder_call : M heap loc :=
  (builder <- Builder_call ;; alloc (OMealBuilder builder))%py.

(** [self.builder] on a [MealBuilder]. *)
Definition get_builder_attr (self : loc) : M heap loc :=
  fun h =>
    match h !! self with
    | Some (OMealBuilder builder) => (Ok builder, h)
    | _ => (Raise AttributeError, h)
    end.

Definition prepare_veg_meal (self : loc) : M heap loc :=
  (b <- get_builder_attr self ;; build_part1 b (VStr "Salad") ;;;
   b <- get_builder_attr self ;; build_part2 b (VStr "Vegetable Curry") ;;;
   b <- get_builder_attr self ;; build_part3 b (VStr "Rice") ;;;
   b <- get_builder_attr self ;; get_product b)%py.

Definition prepare_non_veg_meal (self : loc) : M heap loc :=
  (b <- get_builder_attr self ;; build_part1 b (VStr "Chicken Soup") ;;;
   b <- get_builder_attr self ;; build_part2 b (VStr "Grilled Chicken") ;;;
   b <- get_builder_attr self ;; build_part3 b (VStr "Chicken Tikka") ;;;
   b <- get_builder_attr self ;; get_product b)%py.

(** Reading the three parts of a meal, as the printing cell does. *)
Definition parts (meal : loc) : M heap (value * value * value) :=
  fun h =>
    match h !! meal with
    | Some (OProduct x) => (Ok (part1 x, part2 x, part3 x), h)
    | _ => (Raise AttributeError, h)
    end.

(** [m] is a [MealBuilder] whose builder is [b], whose product is [p], whose
    parts are [x]: what [MealBuilder()] sets up. *)
Definition meal_builder_at (h : heap) (m b p : loc) (x : Product) : Prop :=
  h !! m = Some (OMealBuilder b) /\
  h !! b = Some (OBuilder p) /\
  h !! p = Some (OProduct x).

(** The lecture's cell: both meals are prepared, then both are read. *)
Definition demo : M heap ((value * value * value) * (value * value * value)) :=
  (meal_builder <- MealBuilder_call ;;
   veg_meal <- prepare_veg_meal meal_builder ;;
   non_veg_meal <- prepare_non_veg_meal meal_builder ;;
   v <- parts veg_meal ;;
   n <- parts non_veg_meal ;;
   ret (v, n))%py.

(** A [Director] instance: its [builder] attribute, assigned once by
    [__init__]. *)
Record Director : Type := { director_builder : loc }.

(** The call [Director(builder)]. *)
Definition Director_call (builder : loc) : M heap Director :=
  ret {| director_builder := builder |}.

(** [Director.construct] *)
Definition construct (self : Director) (part1 part2 part3 : value)
    : M heap unit :=
  (build_part1 (director_builder self) part1 ;;;
   build_part2 (director_builder self) part2 ;;;
   build_part3 (director_builder self) part3)%py.

End Builder.

(** ** Composite lecture: [File] and [Directory] *)

Module Composite.
Import Py.

(** A [FileSystemComponent] instance: a [File] with its name, or a
    [Directory] with its name and the identities of its components. *)
Inductive component : Type :=
| File (name : string)
| Directory (name : string) (components : list loc).

Record world : Type := { heap : list component; stdout : list string }.

Definition alloc (c : component) : M world loc :=
  fun w =>
    (Ok (length (heap w)), {| heap := heap w ++ [c]; stdout := stdout w |}).

(** The calls [File(name)] and [Directory(name)]. *)
Definition File_call (name : string) : M world loc := alloc (File name).

Definition Directory_call (name : string) : M world loc :=
  alloc (Directory name []).

Definition print (line : string) : M world unit :=
  fun w => (Ok tt, {| heap := heap w; stdout := stdout w ++ [line] |}).

Definition deref (self : loc) : M world component :=
  fun w =>
    match heap w !! self with
    | Some c => (Ok c, w)
    | None => (Raise AttributeError, w)
    end.

Definition store (self : loc) (c : component) : M world unit :=
  fun w => (Ok tt, {| heap := <[self := c]> (heap w); stdout := stdout w |}).

(** [Directory.add]: [self.components.append(component)] *)
Definition add (self component : loc) : M world unit :=
  (d <- deref self ;;
   match d with
   | Directory name components =>
       store self (Directory name (components ++ [component]))
   | File _ => raise AttributeError
   end)%py.

(** [list.remove(x)]: the list without its first item equal to [x], or
    nothing when no item is ([ValueError]).  Components do not define
    [__eq__], so equality is identity. *)
Fixpoint list_remove_first (x : loc) (l : list loc) : option (list loc) :=
  match l with
  | [] => None
  | y :: l' =>
      if decide (y = x) then Some l'
      else match list_remove_first x l' with
           | Some r => Some (y :: r)
           | None => None
           end
  end.

(** [Directory.remove]: [self.components.remove(component)] *)
Definition remove (self component : loc) : M world unit :=
  (d <- deref self ;;
   match d with
   | Directory name components =>
       match list_remove_first component components with
       | Some components' => store self (Directory name components')
       | None => raise ValueError
       end
   | File _ => raise AttributeError
   end)%py.

(** [for x in xs: body(x)] *)
Fixpoint for_each {S : Type} (xs : list loc) (body : loc -> M S unit)
    : M S unit :=
  match xs with
  | [] => ret tt
  | x :: xs' => (body x ;;; for_each xs' body)%py
  end.

(** [self.show_details()], dispatched on the class of [self].  [depth] is
    the number of nested calls the interpreter still allows; when it is
    used up the call raises [RecursionError]. *)
Fixpoint show_details (depth : nat) (self : loc) : M world unit :=
  match depth with
  | O => raise RecursionError
  | S depth' =>
      (c <- deref self ;;
       match c with
       | File name => print ("File: " ++ name)
       | Directory name components =>
           print ("Directory: " ++ name) ;;;
           for_each components (show_details depth')
       end)%py
  end.

(** The lecture's cells: the tree is built, then shown. *)
Definition demo (depth : nat) : M world unit :=
  (root_directory <- Directory_call "root" ;;
   home_directory <- Directory_call "home" ;;
   user_directory <- Directory_call "user" ;;
   file1 <- File_call "file1.txt" ;;
   file2 <- File_call "file2.txt" ;;
   file3 <- File_call "file3.txt" ;;
   add root_directory home_directory ;;;
   add home_directory user_directory ;;;
   add user_directory file1 ;;;
   add user_directory file2 ;;;
   add root_directory file3 ;;;
   show_details depth root_directory)%py.

(** [c] is one of the components of the directory [p]. *)
Definition child (h : list component) (p c : loc) : Prop :=
  exists name components,
    h !! p = Some (Directory name components) /\ c ∈ components.

(** Every component of a directory is an object of the heap. *)
Definition closed (h : list component) : Prop :=
  forall p c, child h p c -> c < length h.

(** The components under [d] form a finite tree: nothing that [d] reaches
    is reachable from itself. *)
Definition acyclic_from (h : list component) (d : loc) : Prop :=
  forall c, rtc (child h) d c -> ~ tc (child h) c c.

(** Every directory's components were allocated after the directory; a
    sufficient condition for the two above that concrete heaps can check. *)
Definition forward (h : list component) : Prop :=
  forall p c, child h p c -> p < c < length h.

(** The empty interpreter state. *)
Definition empty : world := {| heap := []; stdout := [] |}.

(** The console after [lines] were printed. *)
Definition printed (w : world) (lines : list string) : world :=
  {| heap := heap w; stdout := stdout w ++ lines |}.

(** The lines a call [show_details] prints when [depth] nested calls
    suffice; a reading of [show_details] that leaves the console out. *)
Fixpoint render (depth : nat) (h : list component) (self : loc)
    : option (list string) :=
  match depth with
  | O => None
  | S depth' =>
      match h !! self with
      | Some (File name) => Some [("File: " ++ name)%string]
      | Some (Directory name components) =>
          outs ← mapM (render depth' h) components;
          Some (("Directory: " ++ name)%string :: concat outs)
      | None => None
      end
  end.

End Composite.

(** ** Proxy lecture, first example: [RealSubject] and [Proxy] *)

Module AccessProxy.
Import Py.

(** A [Subject] instance: the [RealSubject], or a [Proxy] with its
    [_real_subject], which [__init__] assigns and nothing reassigns. *)
Inductive subject : Type :=
| RealSubject
| Proxy (_real_subject : subject).

(** The store is the console. *)
Definition print (line : string) : M (list string) unit :=
  fun out => (Ok tt, out ++ [line]).

Definition check_line : string :=
  "Proxy: Checking access prior to firing a real request".

Definition handling_line : string := "RealSubject: Handling request".

Definition log_line : string := "Proxy: Logging the time of request".

(** [Proxy._check_access] *)
Definition _check_access : M (list string) bool :=
  (print check_line ;;; ret true)%py.

(** [Proxy._log_access] *)
Definition _log_access : M (list string) unit := print log_line.

(** [self.request()], dispatched on the class of [self]. *)
Fixpoint request (self : subject) : M (list string) unit :=
  match self with
  | RealSubject => print handling_line
  | Proxy real_subject =>
      (granted <- _check_access ;;
       if granted : bool
       then request real_subject ;;; _log_access
       else ret tt)%py
  end.

(** [client_code(subject)] *)
Definition client_code (s : subject) : M (list string) unit := request s.

(** [n] proxies around the real subject. *)
Fixpoint proxies (n : nat) : subject :=
  match n with
  | O => RealSubject
  | S n' => Proxy (proxies n')
  end.

End AccessProxy.

(** ** Adapter lecture *)

Module Adapter.
Import Py.

(** The instances of the lecture's six classes; an adapter holds the
    identity of what it adapts. *)
Inductive object : Type :=
| TargetInterface
| Adaptee
| Adapter (adaptee : loc)
| EuropeanSocket
| USPlug
| SocketAdapter (european_socket : loc).

Abbreviation heap := (list object).

Definition alloc (o : object) : M heap loc :=
  fun h => (Ok (length h), h ++ [o]).

Definition deref (self : loc) : M heap object :=
  fun h =>
    match h !! self with
    | Some o => (Ok o, h)
    | None => (Raise AttributeError, h)
    end.

(** [self.specific_request()]: only [Adaptee] defines it. *)
Definition specific_request (self : loc) : M heap value :=
  (o <- deref self ;;
   match o with
   | Adaptee => ret (VStr "Response from Adaptee")
   | _ => raise AttributeError
   end)%py.

(** [self.request()]: [TargetInterface] defines it (its body is [pass]) and
    [Adapter] overrides it. *)
Definition request (self : loc) : M heap value :=
  (o <- deref self ;;
   match o with
   | TargetInterface => ret VNone
   | Adapter adaptee => specific_request adaptee
   | _ => raise AttributeError
   end)%py.

(** [self.provide_european_power()]: only [EuropeanSocket] defines it. *)
Definition provide_european_power (self : loc) : M heap string :=
  (o <- deref self ;;
   match o with
   | EuropeanSocket => ret "European power"%string
   | _ => raise AttributeError
   end)%py.

(** [self.request_power()]: [USPlug] defines it (its body is [pass]) and
    [SocketAdapter] overrides it. *)
Definition request_power (self : loc) : M heap value :=
  (o <- deref self ;;
   match o with
   | USPlug => ret VNone
   | SocketAdapter european_socket =>
       european_power <- provide_european_power european_socket ;;
       ret (VStr ("Converted " ++ european_power ++ " to US power"))
   | _ => raise AttributeError
   end)%py.

(** The calls [Adapter(adaptee)] and [SocketAdapter(european_socket)]:
    [__init__] stores the argument, whatever it is. *)
Definition Adapter_call (adaptee : loc) : M heap loc := alloc (Adapter adaptee).

Definition SocketAdapter_call (european_socket : loc) : M heap loc :=
  alloc (SocketAdapter european_socket).

End Adapter.

(** ** Proxy lecture: [RealVideo] and [VideoProxy] *)

Module Proxy.
Import Py.

(** A [Video] instance: a [RealVideo] with its [filename], or a
    [VideoProxy] with its [filename] and [_real_video] ([None] for Python's
    [None]). *)
Inductive object : Type :=
| RealVideo (filename : string)
| VideoProxy (filename : string) (_real_video : option loc).

Record world : Type := { heap : list object; stdout : list string }.

Definition alloc (o : object) : M world loc :=
  fun w =>
    (Ok (length (heap w)), {| heap := heap w ++ [o]; stdout := stdout w |}).

Definition print (line : string) : M world unit :=
  fun w => (Ok tt, {| heap := heap w; stdout := stdout w ++ [line] |}).

Definition deref (self : loc) : M world object :=
  fun w =>
    match heap w !! self with
    | Some o => (Ok o, w)
    | None => (Raise AttributeError, w)
    end.

Definition store (self : loc) (o : object) : M world unit :=
  fun w => (Ok tt, {| heap := <[self := o]> (heap w); stdout := stdout w |}).

(** [self.filename], an attribute of both classes. *)
Definition get_filename (self : loc) : M world string :=
  (o <- deref self ;;
   match o with
   | RealVideo filename => ret filename
   | VideoProxy filename _ => ret filename
   end)%py.

(** [RealVideo._load_video] *)
Definition _load_video (self : loc) : M world unit :=
  (filename <- get_filename self ;;
   print ("RealVideo: Loading video " ++ filename))%py.

(** The call [RealVideo(filename)]: [__init__] sets the attribute, then
    loads the video. *)
Definition RealVideo_call (filename : string) : M world loc :=
  (self <- alloc (RealVideo filename) ;;
   _load_video self ;;;
   ret self)%py.

(** [RealVideo.play] *)
Definition RealVideo_play (self : loc) : M world unit :=
  (filename <- get_filename self ;;
   print ("RealVideo: Playing video " ++ filename))%py.

(** The call [VideoProxy(filename)]. *)
Definition VideoProxy_call (filename : string) : M world loc :=
  alloc (VideoProxy filename None).

(** [self._real_video] on a [VideoProxy]. *)
Definition get_real_video (self : loc) : M world (option loc) :=
  (o <- deref self ;;
   match o with
   | VideoProxy _ rv => ret rv
   | RealVideo _ => raise AttributeError
   end)%py.

(** [self._real_video = v] on a [VideoProxy]. *)
Definition set_real_video (self : loc) (v : option loc) : M world unit :=
  (o <- deref self ;;
   match o with
   | VideoProxy filename _ => store self (VideoProxy filename v)
   | RealVideo _ => raise AttributeError
   end)%py.

(** [VideoProxy.play].  Only this method assigns [_real_video], and only a
    [RealVideo]: the final call is [RealVideo.play]. *)
Definition VideoProxy_play (self : loc) : M world unit :=
  (rv <- get_real_video self ;;
   match rv with
   | None =>
       filename <- get_filename self ;;
       r <- RealVideo_call filename ;;
       set_real_video self (Some r)
   | Some _ => ret tt
   end ;;;
   rv' <- get_real_video self ;;
   match rv' with
   | Some r => RealVideo_play r
   | None => raise AttributeError
   end)%py.

(** [video.play()], dispatched on the class of [video]. *)
Definition play (video : loc) : M world unit :=
  (o <- deref video ;;
   match o with
   | RealVideo _ => RealVideo_play video
   | VideoProxy _ _ => VideoProxy_play video
   end)%py.

(** [n] calls of [video.play()] in a row. *)
Fixpoint plays (n : nat) (video : loc) : M world unit :=
  match n with
  | O => ret tt
  | S n' => (play video ;;; plays n' video)%py
  end.

Definition is_real_video (o : object) : bool :=
  match o with
  | RealVideo _ => true
  | VideoProxy _ _ => false
  end.

(** The two lines a [RealVideo] prints. *)
Definition loading_line (filename : string) : string :=
  ("RealVideo: Loading video " ++ filename)%string.

Definition playing_line (filename : string) : string :=
  ("RealVideo: Playing video " ++ filename)%string.

(** How many times [line] was printed in [out]. *)
Definition count_line (line : string) (out : list string) : nat :=
  length (List.filter (String.eqb line) out).

(** How many [RealVideo] instances the heap holds. *)
Definition count_real_videos (h : list object) : nat :=
  length (List.filter is_real_video h).

End Proxy.

(* ===================================================================== *)
(** * Part II: the properties                                             *)
(* ===================================================================== *)

(** Unfolding the store-passing combinators in a goal. *)
Ltac unfold_M :=
  unfold Py.mbind, Py.ret, Py.raise, Py.lift, Py.get in *.

(** ** Heaps as lists: the object appended last *)

Section Heaps.
Context {A : Type}.
Implicit Types (l : list A) (x : A).

Lemma lookup_last l x : (l ++ [x]) !! length l = Some x.
Proof. now apply list_lookup_middle. Qed.

Lemma lookup_old l x i y : l !! i = Some y -> (l ++ [x]) !! i = Some y.
Proof. apply lookup_app_l_Some. Qed.

Lemma alter_last (f : A -> A) l x :
  alter f (length l) (l ++ [x]) = l ++ [f x].
Proof.
  rewrite <- (Nat.add_0_r (length l)) at 1.
  now rewrite alter_app_r.
Qed.

End Heaps.

(** ** Numbers: the conversions and comparisons at work *)

Section NumberExamples.
Import Py.

(** [float(2**53 + 1)] rounds to even; [float(10**400)] overflows. *)
Example float_of_int_rounds :
  float_of_int (2 ^ 53 + 1) = Ok 9007199254740992%float.
Proof. vm_compute. reflexivity. Qed.

Example float_of_int_overflows : float_of_int (10 ^ 400) = Raise OverflowError.
Proof. vm_compute. reflexivity. Qed.

(** A float is compared with an int exactly; NaN is below nothing. *)
Example lt_float_int :
  lt (NFloat 49999.5) (NInt 50000) = true /\
  lt (NFloat 50000) (NInt 50000) = false /\
  lt (NFloat nan) (NInt 50000) = false /\
  lt (NFloat neg_infinity) (NInt 50000) = true.
Proof. vm_compute. repeat split. Qed.

(** [int * float] goes through [float(int)]. *)
Example mul_int_float :
  mul (NInt 60000) (NFloat 0.1) = Ok (NFloat 6000) /\
  mul (NInt (10 ^ 400)) (NFloat 0.1) = Raise OverflowError.
Proof. vm_compute. repeat split. Qed.

End NumberExamples.

(** ** Prototype *)

Section PrototypeProofs.
Import Py Prototype.

(** Deep-copying attribute data yields the same data. *)
Lemma deepcopy_value_id : forall v, deepcopy_value v = v.
Proof.
  fix IH 1.
  intros [ | b | n | s | vs]; simpl; try reflexivity.
  f_equal.
  induction vs as [ | x xs IHxs]; simpl; [reflexivity | ].
  f_equal; [apply IH | apply IHxs].
Qed.

Lemma deepcopy_state_id (state : instance) : deepcopy_value <$> state = state.
Proof.
  apply map_eq; intros a.
  rewrite lookup_fmap.
  destruct (state !! a) as [v | ]; simpl; [ | reflexivity].
  f_equal; apply deepcopy_value_id.
Qed.

(** What [clone] does to the heap: one instance is appended, with the
    source's [__dict__]. *)
Lemma clone_spec (h : heap) (p : loc) (o : instance) :
  h !! p = Some o -> clone p h = (Ok (length h), h ++ [o]).
Proof.
  intros Hp. unfold clone, deepcopy. rewrite Hp.
  now rewrite deepcopy_state_id.
Qed.

Lemma getattr_spec (h : heap) (x : loc) (a : string) :
  getattr x a h =
  (match h !! x ≫= (fun o => o !! a) with
   | Some v => Ok v
   | None => Raise AttributeError
   end, h).
Proof. unfold getattr. now destruct (h !! x ≫= _). Qed.

Lemma getattr_ok (h : heap) (x : loc) (a : string) (v : value) :
  getattr x a h = (Ok v, h) <-> exists o, h !! x = Some o /\ o !! a = Some v.
Proof.
  rewrite getattr_spec. split.
  - destruct (h !! x) as [o | ]; simpl; [ | discriminate].
    destruct (o !! a) as [v' | ] eqn:E; [ | discriminate].
    intros [= ->]. now exists o.
  - intros (o & -> & Ha). simpl. now rewrite Ha.
Qed.

(** The constructor returns a fresh instance holding the two attributes. *)
Lemma ProductPrototype_spec (h : heap) (n r : value) :
  ProductPrototype n r h =
  (Ok (length h), h ++ [<["price" := r]> (<["name" := n]> ∅)]).
Proof.
  unfold ProductPrototype, init, new_object, setattr. unfold_M.
  f_equal.
  now rewrite !alter_last.
Qed.

(** C1.  A [ProductPrototype] constructed with name [n] and price [r] has
    these attributes, and so has its clone; more generally the clone of any
    product has the name and the price the product has when [clone] is
    called, and [clone] leaves the product's own name and price as they
    were. *)
Theorem Prototype_clone_same_attributes :
  (forall (h : heap) (n r : value),
     exists p h1 c h2,
       ProductPrototype n r h = (Ok p, h1) /\
       clone p h1 = (Ok c, h2) /\
       getattr c "name" h2 = (Ok n, h2) /\
       getattr c "price" h2 = (Ok r, h2) /\
       getattr p "name" h2 = (Ok n, h2) /\
       getattr p "price" h2 = (Ok r, h2)) /\
  (forall (h : heap) (p : loc) (n r : value),
     getattr p "name" h = (Ok n, h) ->
     getattr p "price" h = (Ok r, h) ->
     exists c h',
       clone p h = (Ok c, h') /\
       getattr c "name" h' = (Ok n, h') /\
       getattr c "price" h' = (Ok r, h') /\
       getattr p "name" h' = (Ok n, h') /\
       getattr p "price" h' = (Ok r, h')).
Proof.
  assert (General : forall (h : heap) (p : loc) (n r : value),
     getattr p "name" h = (Ok n, h) ->
     getattr p "price" h = (Ok r, h) ->
     exists c h',
       clone p h = (Ok c, h') /\
       getattr c "name" h' = (Ok n, h') /\
       getattr c "price" h' = (Ok r, h') /\
       getattr p "name" h' = (Ok n, h') /\
       getattr p "price" h' = (Ok r, h')).
  { intros h p n r Hn Hr.
    apply getattr_ok in Hn as (o & Hp & Hn).
    apply getattr_ok in Hr as (o' & Hp' & Hr).
    assert (o' = o) as -> by congruence.
    exists (length h), (h ++ [o]).
    split; [now apply clone_spec | ].
    repeat split; apply getattr_ok; exists o;
      (split; [ | assumption]);
      first [apply lookup_last | now apply lookup_old]. }
  split; [ | exact General].
  intros h n r.
  destruct (General (h ++ [<["price" := r]> (<["name" := n]> ∅)]) (length h) n r)
    as (c & h2 & Hc & H); try (apply getattr_ok; eexists;
      split; [apply lookup_last | reflexivity]).
  exists (length h), (h ++ [<["price" := r]> (<["name" := n]> ∅)]), c, h2.
  split; [apply ProductPrototype_spec | ].
  split; assumption.
Qed.

(** The lecture's product and its clone. *)
Lemma Prototype_clone_same_attributes_witness :
  exists c h',
    clone 0 [<["price" := VNum (NInt 500)]> (<["name" := VStr "Smartphone"]> ∅)]
      = (Ok c, h') /\
    getattr c "name" h' = (Ok (VStr "Smartphone"), h') /\
    getattr c "price" h' = (Ok (VNum (NInt 500)), h') /\
    getattr 0 "name" h' = (Ok (VStr "Smartphone"), h') /\
    getattr 0 "price" h' = (Ok (VNum (NInt 500)), h').
Proof.
  apply (proj2 Prototype_clone_same_attributes); reflexivity.
Defined.

(** C7.  The clone is another object than its source, and the two are
    independent: whatever is assigned to an attribute of the clone, every
    attribute of the source (its name and price among them) reads as
    before the cloning; whatever is assigned to an attribute of the
    source after the cloning, every attribute of the clone reads as it did
    when the clone was made. *)
Theorem Prototype_clone_is_independent (h : heap) (p : loc) :
  is_Some (h !! p) ->
  exists c h',
    clone p h = (Ok c, h') /\
    c <> p /\
    (forall a v b,
       fst (getattr p b (snd (setattr c a v h'))) = fst (getattr p b h)) /\
    (forall a v b,
       fst (getattr c b (snd (setattr p a v h'))) = fst (getattr c b h')).
Proof.
  intros [o Hp].
  assert (Hlt : p < length h) by (eapply lookup_lt_Some; eassumption).
  exists (length h), (h ++ [o]).
  split; [now apply clone_spec | ].
  split; [lia | ].
  split; intros a v b; rewrite !getattr_spec; unfold setattr; simpl.
  - rewrite alter_last, (lookup_old _ _ _ _ Hp), Hp. reflexivity.
  - rewrite list_lookup_alter_ne by lia. reflexivity.
Qed.

(** The lecture's product: its clone is object 1, not object 0. *)
Lemma Prototype_clone_is_independent_witness :
  exists c h',
    clone 0 [<["price" := VNum (NInt 500)]> (<["name" := VStr "Smartphone"]> ∅)]
      = (Ok c, h') /\
    c <> 0 /\
    (forall a v b,
       fst (getattr 0 b (snd (setattr c a v h'))) =
       fst (getattr 0 b
              [<["price" := VNum (NInt 500)]> (<["name" := VStr "Smartphone"]> ∅)])) /\
    (forall a v b,
       fst (getattr c b (snd (setattr 0 a v h'))) = fst (getattr c b h')).
Proof.
  apply (Prototype_clone_is_independent
           [<["price" := VNum (NInt 500)]> (<["name" := VStr "Smartphone"]> ∅)] 0).
  simpl. eexists. reflexivity.
Defined.

End PrototypeProofs.

(** ** Singleton *)

Section SingletonProofs.
Import Py Singleton.

(** The first evaluation of [Logger()], the file being granted. *)
Lemma Logger_call_first (w : world) :
  _instance w = None ->
  Logger_call true w =
  (Ok (Some (length (heap w))),
   {| _instance := Some (length (heap w));
      heap := heap w ++ [{| _log_file := Some (length (files w)) |}];
      files := files w ++ [{| written := []; closed := false |}];
      stdout := stdout w |}).
Proof.
  intros Hnone. unfold Logger_call, new. unfold_M. rewrite Hnone.
  unfold object_new, set_instance, open, set_log_file; simpl.
  now rewrite alter_last.
Qed.

(** The first evaluation when [open] raises: the exception escapes, the
    class variable is already assigned. *)
Lemma Logger_call_first_fails (w : world) :
  _instance w = None ->
  Logger_call false w =
  (Raise OSError,
   {| _instance := Some (length (heap w));
      heap := heap w ++ [{| _log_file := None |}];
      files := files w;
      stdout := stdout w |}).
Proof.
  intros Hnone. unfold Logger_call, new. unfold_M. now rewrite Hnone.
Qed.

(** Every later evaluation returns the stored instance and changes nothing. *)
Lemma Logger_call_again (w : world) (l : loc) (can_open : bool) :
  _instance w = Some l -> Logger_call can_open w = (Ok (Some l), w).
Proof.
  intros Hsome. unfold Logger_call, new. unfold_M.
  rewrite Hsome; simpl. now rewrite Hsome.
Qed.

Lemma calls_cons (c : bool) (env : list bool) (w : world) :
  calls (c :: env) w =
  (fst (Logger_call c w) :: fst (calls env (snd (Logger_call c w))),
   snd (calls env (snd (Logger_call c w)))).
Proof.
  change (calls (c :: env) w) with
    (let (r, w') := Logger_call c w in
     let (rs, w'') := calls env w' in (r :: rs, w'')).
  destruct (Logger_call c w) as [r w']; simpl.
  now destruct (calls env w') as [rs w''].
Qed.

(** Once the instance is stored, any sequence of evaluations returns it. *)
Lemma calls_again (env : list bool) (w : world) (l : loc) :
  _instance w = Some l ->
  calls env w = (map (fun _ => Ok (Some l)) env, w).
Proof.
  intros Hsome. induction env as [ | c env IH]; [reflexivity | ].
  rewrite calls_cons, (Logger_call_again w l c Hsome); simpl.
  now rewrite IH.
Qed.

(** All evaluations of a sequence that starts right after the class
    statement, spelled out. *)
Lemma calls_initial (c : bool) (env : list bool) :
  exists w,
    calls (c :: env) initial =
    ((if c then Ok (Some 0) else Raise OSError)
       :: map (fun _ => Ok (Some 0)) env, w) /\
    _instance w = Some 0 /\ length (heap w) = 1.
Proof.
  rewrite calls_cons. destruct c.
  - rewrite (Logger_call_first initial eq_refl); simpl.
    eexists. rewrite (calls_again env _ 0) by reflexivity. repeat split.
  - rewrite (Logger_call_first_fails initial eq_refl); simpl.
    eexists. rewrite (calls_again env _ 0) by reflexivity. repeat split.
Qed.

(** C2.  Take any sequence of evaluations of [Logger()] after the class
    statement.  There is one instance [l] such that every evaluation that
    returns, returns [l]; every evaluation returns, except a first one
    whose [open] raises; the heap never holds more than one [Logger], and
    it is [l]; and the lecture's cell prints [True]. *)
Theorem Singleton_one_instance (env : list bool) :
  exists l : loc,
    (forall i a, fst (calls env initial) !! i = Some (Ok a) -> a = Some l) /\
    (forall i j a b,
       fst (calls env initial) !! i = Some (Ok a) ->
       fst (calls env initial) !! j = Some (Ok b) ->
       is_ a b = true) /\
    (forall i c,
       env !! i = Some c -> (i = 0 -> c = true) ->
       fst (calls env initial) !! i = Some (Ok (Some l))) /\
    length (heap (snd (calls env initial))) <= 1 /\
    (forall k, is_Some (heap (snd (calls env initial)) !! k) -> k = l) /\
    (forall c2,
       exists w, demo true c2 initial = (Ok tt, w) /\ stdout w = ["True"%string]).
Proof.
  exists 0.
  assert (Hret : forall i a,
            fst (calls env initial) !! i = Some (Ok a) -> a = Some 0).
  { destruct env as [ | c env]; [intros i a; simpl; rewrite lookup_nil; discriminate | ].
    destruct (calls_initial c env) as (w & -> & _ & _); simpl.
    intros [ | i] a; simpl.
    - destruct c; congruence.
    - rewrite list_lookup_fmap. destruct (env !! i); simpl; congruence. }
  split; [exact Hret | ].
  split.
  { intros i j a b Ha Hb.
    rewrite (Hret _ _ Ha), (Hret _ _ Hb). reflexivity. }
  split.
  { destruct env as [ | c env]; [intros i c; rewrite lookup_nil; discriminate | ].
    destruct (calls_initial c env) as (w & -> & _ & _); simpl.
    intros [ | i] c'; simpl.
    - intros [= ->] Hc. now rewrite Hc.
    - intros Hi _. rewrite list_lookup_fmap, Hi. reflexivity. }
  assert (Hlen : length (heap (snd (calls env initial))) <= 1).
  { destruct env as [ | c env]; [simpl; lia | ].
    destruct (calls_initial c env) as (w & -> & _ & Hlen); simpl. lia. }
  split; [exact Hlen | ].
  split.
  { intros k [x Hk]. apply lookup_lt_Some in Hk. lia. }
  intros c2. unfold demo. unfold_M.
  rewrite (Logger_call_first initial eq_refl).
  rewrite (Logger_call_again _ 0 c2) by reflexivity.
  eexists. split; reflexivity.
Qed.

(** The lecture's two evaluations: both return the same instance. *)
Lemma Singleton_one_instance_witness :
  exists l : loc,
    fst (calls [true; true] initial) !! 0 = Some (Ok (Some l)) /\
    fst (calls [true; true] initial) !! 1 = Some (Ok (Some l)) /\
    is_ (Some l) (Some l) = true.
Proof.
  destruct (Singleton_one_instance [true; true])
    as (l & _ & Hsame & Hret & _).
  exists l.
  assert (H0 : fst (calls [true; true] initial) !! 0 = Some (Ok (Some l)))
    by (apply (Hret 0 true); [reflexivity | reflexivity]).
  assert (H1 : fst (calls [true; true] initial) !! 1 = Some (Ok (Some l)))
    by (apply (Hret 1 true); [reflexivity | discriminate]).
  split; [exact H0 | ].
  split; [exact H1 | ].
  exact (Hsame 0 1 _ _ H0 H1).
Defined.

End SingletonProofs.

(** ** Factory Method *)

Section FactoryProofs.
Import Py Factory.

(** The constructor appends the employee and returns its identity. *)
Lemma Employee_call_spec (h : heap) (cls : employee_class) (n : value)
    (s : number) :
  Employee_call cls n s h =
  (Ok (length h), h ++ [{| class := cls; name := n; salary := s |}]).
Proof. reflexivity. Qed.

Lemma deref_spec (h : heap) (self : loc) (e : Employee) :
  h !! self = Some e -> deref self h = (Ok e, h).
Proof. intros He. unfold deref. now rewrite He. Qed.

(** [z < 50000] on two ints is the order of the integers. *)
Lemma lt_int (a b : Z) : lt (NInt a) (NInt b) = true <-> (a < b)%Z.
Proof. simpl. apply Z.ltb_lt. Qed.

(** C3.  [Recruiter.make_employee] returns a new [PartTimeEmployee] exactly
    when [salary < 50000] holds and a new [Contractor] otherwise (for an
    int salary, [<] is the order of the integers); [HRManager.make_employee]
    always returns a new [FullTimeEmployee]; either way the employee has the
    name and the salary given.  The hiring cells therefore compute John,
    6000.0, FullTimeEmployee; Alice, 2000.0, PartTimeEmployee; Bob, 0,
    Contractor. *)
Theorem Factory_make_employee (h : heap) (n : value) (s : number) :
  (exists cls,
     make_employee Recruiter n s h =
       (Ok (length h), h ++ [{| class := cls; name := n; salary := s |}]) /\
     (cls = PartTimeEmployee <-> lt s (NInt 50000) = true) /\
     (cls = Contractor <-> lt s (NInt 50000) = false)) /\
  (forall z, lt (NInt z) (NInt 50000) = true <-> (z < 50000)%Z) /\
  make_employee HRManager n s h =
    (Ok (length h),
     h ++ [{| class := FullTimeEmployee; name := n; salary := s |}]) /\
  fst (demo []) =
    Ok [(VStr "John", NFloat 6000.0, "FullTimeEmployee"%string);
        (VStr "Alice", NFloat 2000.0, "PartTimeEmployee"%string);
        (VStr "Bob", NInt 0, "Contractor"%string)].
Proof.
  split.
  { unfold make_employee.
    destruct (lt s (NInt 50000)) eqn:E.
    - exists PartTimeEmployee. rewrite Employee_call_spec.
      repeat split; congruence.
    - exists Contractor. rewrite Employee_call_spec.
      repeat split; congruence. }
  split; [intros z; apply lt_int | ].
  split; [reflexivity | ].
  vm_compute. reflexivity.
Qed.

(** C4.  On an employee with salary [s], [calculate_bonus] returns
    [s * 0.1] for a [FullTimeEmployee], [s * 0.05] for a
    [PartTimeEmployee] and [0] for a [Contractor] (raising what the
    product raises), and the heap, hence the employee's name and salary,
    is as before the call; this holds for the employee as constructed and
    for any employee of the heap. *)
Theorem Factory_calculate_bonus :
  (forall (h : heap) (cls : employee_class) (n : value) (s : number),
     exists self h1,
       Employee_call cls n s h = (Ok self, h1) /\
       h1 !! self = Some {| class := cls; name := n; salary := s |} /\
       calculate_bonus self h1 =
         (match cls with
          | FullTimeEmployee => mul s (NFloat 0.1)
          | PartTimeEmployee => mul s (NFloat 0.05)
          | Contractor => Ok (NInt 0)
          end, h1)) /\
  (forall (h : heap) (self : loc) (e : Employee),
     h !! self = Some e ->
     (class e = FullTimeEmployee ->
      calculate_bonus self h = (mul (salary e) (NFloat 0.1), h)) /\
     (class e = PartTimeEmployee ->
      calculate_bonus self h = (mul (salary e) (NFloat 0.05), h)) /\
     (class e = Contractor ->
      calculate_bonus self h = (Ok (NInt 0), h)) /\
     snd (calculate_bonus self h) = h).
Proof.
  assert (General : forall (h : heap) (self : loc) (e : Employee),
            h !! self = Some e ->
            calculate_bonus self h =
              (match class e with
               | FullTimeEmployee => mul (salary e) (NFloat 0.1)
               | PartTimeEmployee => mul (salary e) (NFloat 0.05)
               | Contractor => Ok (NInt 0)
               end, h)).
  { intros h self e He. unfold calculate_bonus. unfold_M.
    rewrite (deref_spec _ _ _ He). now destruct (class e). }
  split.
  - intros h cls n s.
    exists (length h), (h ++ [{| class := cls; name := n; salary := s |}]).
    split; [apply Employee_call_spec | ].
    split; [apply lookup_last | ].
    rewrite (General _ _ _ (lookup_last h _)). reflexivity.
  - intros h self e He. rewrite (General _ _ _ He).
    repeat split; intros ->; reflexivity.
Qed.

(** The lecture's three employees and their bonuses. *)
Lemma Factory_calculate_bonus_witness :
  let h := [{| class := FullTimeEmployee; name := VStr "John";
               salary := NInt 60000 |};
            {| class := PartTimeEmployee; name := VStr "Alice";
               salary := NInt 40000 |};
            {| class := Contractor; name := VStr "Bob";
               salary := NInt 80000 |}] in
  calculate_bonus 0 h = (Ok (NFloat 6000.0), h) /\
  calculate_bonus 1 h = (Ok (NFloat 2000.0), h) /\
  calculate_bonus 2 h = (Ok (NInt 0), h).
Proof.
  intros h.
  pose proof (proj2 Factory_calculate_bonus h 0 _ eq_refl) as (H0 & _).
  pose proof (proj2 Factory_calculate_bonus h 1 _ eq_refl) as (_ & H1 & _).
  pose proof (proj2 Factory_calculate_bonus h 2 _ eq_refl) as (_ & _ & H2 & _).
  split; [exact (H0 eq_refl) | ].
  split; [exact (H1 eq_refl) | exact (H2 eq_refl)].
Defined.

End FactoryProofs.

(** ** Decorator *)

Section DecoratorProofs.
Import Py Decorator.
Context {W B : Type} `{!Beverage W B}.

(** A decorator's method runs the wrapped beverage's method once and
    post-processes what it returns; the store is left as the wrapped
    method left it. *)
Lemma AddOn_cost_spec (cls : addon) (b : B) (w : W) :
  cost {| class := cls; _beverage := b |} w =
  match cost b w with
  | (Ok c, w') =>
      (add c (NFloat (match cls with
                      | MilkDecorator => 0.50
                      | MochaDecorator => 0.75
                      end)), w')
  | (Raise e, w') => (Raise e, w')
  end.
Proof.
  simpl. unfold AddOn_cost; simpl. unfold_M.
  destruct cls; destruct (cost b w) as [[c | e] w']; reflexivity.
Qed.

Lemma AddOn_description_spec (cls : addon) (b : B) (w : W) :
  description {| class := cls; _beverage := b |} w =
  match description b w with
  | (Ok d, w') =>
      (Ok (d ++ match cls with
                | MilkDecorator => ", Milk"
                | MochaDecorator => ", Mocha"
                end)%string, w')
  | (Raise e, w') => (Raise e, w')
  end.
Proof.
  simpl. unfold AddOn_description; simpl. unfold_M.
  destruct cls; destruct (description b w) as [[d | e] w']; reflexivity.
Qed.

(** C5.  For a beverage [b] of any class implementing the interface:
    [MilkDecorator(b)] and [MochaDecorator(b)] store [b] and touch nothing
    else; the cost of the decorated beverage is [b.cost() + 0.50]
    (respectively [+ 0.75]) and its description is [b.description()] with
    [", Milk"] (respectively [", Mocha"]) appended, the store being as the
    wrapped method left it; the coffee-shop cell obtains 1.99,
    1.99 + 0.50 and 1.99 + 0.50 + 0.75 with the three descriptions, sums
    that are the floats 2.49 and 3.24 of the recorded output. *)
Theorem Decorator_addons (b : B) (w : W) :
  (forall cls,
     AddOnDecorator_call cls b w = (Ok {| class := cls; _beverage := b |}, w)) /\
  (forall c w',
     cost b w = (Ok c, w') ->
     cost {| class := MilkDecorator; _beverage := b |} w
       = (add c (NFloat 0.50), w') /\
     cost {| class := MochaDecorator; _beverage := b |} w
       = (add c (NFloat 0.75), w')) /\
  (forall d w',
     description b w = (Ok d, w') ->
     description {| class := MilkDecorator; _beverage := b |} w
       = (Ok (d ++ ", Milk")%string, w') /\
     description {| class := MochaDecorator; _beverage := b |} w
       = (Ok (d ++ ", Mocha")%string, w')) /\
  (forall cls e w',
     (cost b w = (Raise e, w') ->
      cost {| class := cls; _beverage := b |} w = (Raise e, w')) /\
     (description b w = (Raise e, w') ->
      description {| class := cls; _beverage := b |} w = (Raise e, w'))) /\
  demo w =
    (Ok [("Espresso"%string, NFloat 1.99);
         ("Espresso, Milk"%string, NFloat (1.99 + 0.50));
         ("Espresso, Milk, Mocha"%string, NFloat (1.99 + 0.50 + 0.75))], w) /\
  add (NFloat 1.99) (NFloat 0.50) = Ok (NFloat 2.49) /\
  add (NFloat 2.49) (NFloat 0.75) = Ok (NFloat 3.24).
Proof.
  split; [reflexivity | ].
  split.
  { intros c w' Hb. rewrite !AddOn_cost_spec, Hb. now split. }
  split.
  { intros d w' Hb. rewrite !AddOn_description_spec, Hb. now split. }
  split.
  { intros cls e w'.
    split; intros Hb;
      [rewrite AddOn_cost_spec | rewrite AddOn_description_spec];
      now rewrite Hb. }
  repeat split; reflexivity.
Qed.

End DecoratorProofs.

Section DecoratorExample.
Import Py Decorator.

(** Milk and mocha on the lecture's espresso. *)
Lemma Decorator_addons_witness :
  cost {| class := MilkDecorator; _beverage := Espresso_call |} tt
    = (Ok (NFloat (1.99 + 0.50)), tt) /\
  cost {| class := MochaDecorator; _beverage := Espresso_call |} tt
    = (Ok (NFloat (1.99 + 0.75)), tt) /\
  description {| class := MilkDecorator; _beverage := Espresso_call |} tt
    = (Ok "Espresso, Milk"%string, tt) /\
  description {| class := MochaDecorator; _beverage := Espresso_call |} tt
    = (Ok "Espresso, Mocha"%string, tt).
Proof.
  destruct (Decorator_addons (W := unit) Espresso_call tt)
    as (_ & Hcost & Hdescription & _).
  destruct (Hcost (NFloat 1.99) tt eq_refl) as [Hmilk Hmocha].
  destruct (Hdescription "Espresso"%string tt eq_refl) as [Dmilk Dmocha].
  repeat split; assumption.
Defined.

End DecoratorExample.

(** ** Builder *)

Section BuilderProofs.
Import Py Builder.

(** [MealBuilder()] allocates a product, its builder and the meal builder. *)
Lemma MealBuilder_call_spec (h : heap) :
  exists m b p h0,
    MealBuilder_call h = (Ok m, h0) /\
    meal_builder_at h0 m b p
      {| part1 := VNone; part2 := VNone; part3 := VNone |}.
Proof.
  unfold MealBuilder_call, Builder_call, Product_call, alloc. unfold_M.
  eexists _, _, _, _. split; [reflexivity | ].
  split; [apply lookup_last | ].
  split; [apply lookup_old, lookup_last | ].
  apply lookup_old, lookup_old, lookup_last.
Qed.

(** One building step through the meal builder: the builder is read from
    the meal builder, the product from the builder, and the part is
    written into that product. *)
Lemma build_step (upd : Product -> Product) (h : heap) (m b p : loc)
    (x : Product) :
  meal_builder_at h m b p x ->
  get_builder_attr m h = (Ok b, h) /\
  get_product_attr b h = (Ok p, h) /\
  set_part upd p h = (Ok tt, <[p := OProduct (upd x)]> h) /\
  meal_builder_at (<[p := OProduct (upd x)]> h) m b p (upd x).
Proof.
  intros (Hm & Hb & Hp).
  unfold get_builder_attr, get_product_attr, set_part.
  rewrite Hm, Hb, Hp. repeat split.
  - rewrite list_lookup_insert_ne by congruence. exact Hm.
  - rewrite list_lookup_insert_ne by congruence. exact Hb.
  - apply list_lookup_insert_eq. eapply lookup_lt_Some; eassumption.
Qed.

(** The common shape of the two [prepare_*] methods: three building steps,
    then [get_product]. *)
Lemma prepare_steps (v1 v2 v3 : value) (h : heap) (m b p : loc) (x : Product) :
  meal_builder_at h m b p x ->
  exists h1,
    (b <- get_builder_attr m ;; build_part1 b v1 ;;;
     b <- get_builder_attr m ;; build_part2 b v2 ;;;
     b <- get_builder_attr m ;; build_part3 b v3 ;;;
     b <- get_builder_attr m ;; get_product b)%py h = (Ok p, h1) /\
    meal_builder_at h1 m b p {| part1 := v1; part2 := v2; part3 := v3 |}.
Proof.
  intros H.
  unfold build_part1, build_part2, build_part3, get_product.
  unfold_M.
  destruct (build_step
              (fun x => {| part1 := v1; part2 := part2 x; part3 := part3 x |})
              _ _ _ _ _ H)
    as (Hm1 & Hb1 & Hs1 & H1).
  rewrite Hm1, Hb1, Hs1.
  destruct (build_step
              (fun x => {| part1 := part1 x; part2 := v2; part3 := part3 x |})
              _ _ _ _ _ H1)
    as (Hm2 & Hb2 & Hs2 & H2).
  rewrite Hm2, Hb2, Hs2.
  destruct (build_step
              (fun x => {| part1 := part1 x; part2 := part2 x; part3 := v3 |})
              _ _ _ _ _ H2)
    as (Hm3 & Hb3 & Hs3 & H3).
  rewrite Hm3, Hb3, Hs3.
  destruct (build_step (fun x => x) _ _ _ _ _ H3) as (Hm4 & Hb4 & _ & _).
  rewrite Hm4, Hb4.
  eexists. split; [reflexivity | exact H3].
Qed.

Lemma parts_spec (h : heap) (m b p : loc) (x : Product) :
  meal_builder_at h m b p x -> parts p h = (Ok (part1 x, part2 x, part3 x), h).
Proof. intros (_ & _ & Hp). unfold parts. now rewrite Hp. Qed.

(** C8.  [MealBuilder()] sets up one product behind one builder.  On such a
    meal builder, [prepare_veg_meal] and then [prepare_non_veg_meal] return
    the same object, the builder's one product; it holds the veg parts
    after the first call and the non-veg parts after the second, so the
    meal named [veg_meal] reads Chicken Soup, Grilled Chicken, Chicken
    Tikka; this is what the lecture's cell reads for both meals. *)
Theorem Builder_meals_share_product :
  (forall h : heap,
     exists m b p h0,
       MealBuilder_call h = (Ok m, h0) /\
       meal_builder_at h0 m b p
         {| part1 := VNone; part2 := VNone; part3 := VNone |}) /\
  (forall (h : heap) (m b p : loc) (x : Product),
     meal_builder_at h m b p x ->
     exists veg_meal non_veg_meal h1 h2,
       prepare_veg_meal m h = (Ok veg_meal, h1) /\
       prepare_non_veg_meal m h1 = (Ok non_veg_meal, h2) /\
       veg_meal = non_veg_meal /\
       veg_meal = p /\
       parts veg_meal h1 =
         (Ok (VStr "Salad", VStr "Vegetable Curry", VStr "Rice"), h1) /\
       parts veg_meal h2 =
         (Ok (VStr "Chicken Soup", VStr "Grilled Chicken",
              VStr "Chicken Tikka"), h2)) /\
  fst (demo []) =
    Ok ((VStr "Chicken Soup", VStr "Grilled Chicken", VStr "Chicken Tikka"),
        (VStr "Chicken Soup", VStr "Grilled Chicken", VStr "Chicken Tikka")).
Proof.
  split; [exact MealBuilder_call_spec | ].
  split; [ | reflexivity].
  intros h m b p x H.
  destruct (prepare_steps (VStr "Salad") (VStr "Vegetable Curry") (VStr "Rice")
              h m b p x H) as (h1 & Hveg & H1).
  destruct (prepare_steps (VStr "Chicken Soup") (VStr "Grilled Chicken")
              (VStr "Chicken Tikka") h1 m b p _ H1) as (h2 & Hnon & H2).
  exists p, p, h1, h2.
  split; [exact Hveg | ].
  split; [exact Hnon | ].
  split; [reflexivity | ].
  split; [reflexivity | ].
  split; [exact (parts_spec _ _ _ _ _ H1) | exact (parts_spec _ _ _ _ _ H2)].
Qed.

(** The lecture's meal builder, made in an empty heap. *)
Lemma Builder_meals_share_product_witness :
  let h := snd (MealBuilder_call []) in
  exists veg_meal non_veg_meal h1 h2,
    prepare_veg_meal 2 h = (Ok veg_meal, h1) /\
    prepare_non_veg_meal 2 h1 = (Ok non_veg_meal, h2) /\
    veg_meal = non_veg_meal /\
    veg_meal = 0 /\
    parts veg_meal h1 =
      (Ok (VStr "Salad", VStr "Vegetable Curry", VStr "Rice"), h1) /\
    parts veg_meal h2 =
      (Ok (VStr "Chicken Soup", VStr "Grilled Chicken",
           VStr "Chicken Tikka"), h2).
Proof.
  intros h.
  apply (proj1 (proj2 Builder_meals_share_product) h 2 1 0
           {| part1 := VNone; part2 := VNone; part3 := VNone |}).
  repeat split.
Defined.

End BuilderProofs.

(** ** Composite *)

Section CompositeProofs.
Import Py Composite.

Lemma list_remove_first_absent (x : loc) (l : list loc) :
  x ∉ l -> list_remove_first x l = None.
Proof.
  induction l as [ | y l IH]; simpl; [reflexivity | ].
  intros Hx. apply not_elem_of_cons in Hx as [Hne Hx].
  destruct (decide (y = x)) as [-> | _]; [congruence | ].
  now rewrite IH.
Qed.

Lemma list_remove_first_present (x : loc) (l : list loc) :
  x ∈ l ->
  exists l1 l2,
    l = l1 ++ x :: l2 /\ (x ∉ l1) /\ list_remove_first x l = Some (l1 ++ l2).
Proof.
  induction l as [ | y l IH]; simpl; intros Hx.
  - now apply elem_of_nil in Hx.
  - destruct (decide (y = x)) as [-> | Hne].
    + exists [], l. repeat split. apply not_elem_of_nil.
    + apply elem_of_cons in Hx as [-> | Hx]; [congruence | ].
      destruct (IH Hx) as (l1 & l2 & -> & Hl1 & ->).
      exists (y :: l1), l2. repeat split.
      apply not_elem_of_cons. split; [congruence | assumption].
Qed.

Lemma printed_printed (w : world) (a b : list string) :
  printed (printed w a) b = printed w (a ++ b).
Proof. unfold printed; simpl. now rewrite <- app_assoc. Qed.

Lemma printed_nil (w : world) : printed w [] = w.
Proof. destruct w. unfold printed; simpl. now rewrite app_nil_r. Qed.

(** [show_details] prints what [render] computes, whenever [render] has
    depth enough. *)
Lemma for_each_render (depth : nat) (h : list component) :
  (forall self w lines,
     render depth (heap w) self = Some lines ->
     show_details depth self w = (Ok tt, printed w lines)) ->
  forall cs outs,
    Forall2 (fun c out => render depth h c = Some out) cs outs ->
    forall w, heap w = h ->
      for_each cs (show_details depth) w = (Ok tt, printed w (concat outs)).
Proof.
  intros IH cs outs HF.
  induction HF as [ | c out cs outs Hc _ IHF]; intros w Hw; simpl.
  - unfold_M. now rewrite printed_nil.
  - unfold_M. rewrite (IH c w out) by (now rewrite Hw).
    rewrite IHF by (simpl; exact Hw).
    now rewrite printed_printed.
Qed.

Lemma show_details_render (depth : nat) :
  forall self w lines,
    render depth (heap w) self = Some lines ->
    show_details depth self w = (Ok tt, printed w lines).
Proof.
  induction depth as [ | depth IH]; intros self w lines; simpl;
    [discriminate | ].
  unfold deref. unfold_M.
  destruct (heap w !! self) as [[name | name cs] | ]; [ | | discriminate].
  - now intros [= <-].
  - destruct (mapM (render depth (heap w)) cs) as [outs | ] eqn:E; simpl;
      [ | discriminate].
    intros [= <-]. apply mapM_Some in E.
    rewrite (for_each_render depth (heap w) IH cs outs E) by reflexivity.
    unfold printed; simpl. now rewrite <- app_assoc.
Qed.

(** More depth does not change what is rendered. *)
Lemma render_mono (h : list component) (depth : nat) :
  forall depth' x out,
    depth <= depth' ->
    render depth h x = Some out -> render depth' h x = Some out.
Proof.
  induction depth as [ | depth IH]; intros depth' x out Hle; simpl;
    [discriminate | ].
  destruct depth' as [ | depth']; [lia | ]. simpl.
  destruct (h !! x) as [[name | name cs] | ]; [trivial | | trivial].
  destruct (mapM (render depth h) cs) as [outs | ] eqn:E; simpl;
    [ | discriminate].
  intros [= <-]. apply mapM_Some in E.
  assert (E' : mapM (render depth' h) cs = Some outs).
  { apply mapM_Some. eapply Forall2_impl; [exact E | ].
    intros c o Hc. apply IH; [lia | exact Hc]. }
  now rewrite E'.
Qed.

(** A list of distinct objects of a heap is no longer than the heap. *)
Lemma distinct_objects_length (n : nat) (l : list loc) :
  NoDup l -> (forall y, y ∈ l -> y < n) -> length l <= n.
Proof.
  intros Hnd Hlt.
  assert (Hsub : l ⊆+ seq 0 n).
  { apply NoDup_submseteq; [exact Hnd | ].
    intros y Hy. apply elem_of_seq. specialize (Hlt y Hy). lia. }
  apply submseteq_length in Hsub. now rewrite length_seq in Hsub.
Qed.

(** In a closed heap, below a directory that reaches no cycle, rendering
    succeeds with depth the size of the heap: a chain of nested calls visits
    distinct objects. *)
Lemma render_total_aux (h : list component) (d : loc) :
  closed h -> acyclic_from h d ->
  forall k x path,
    NoDup (x :: path) ->
    (forall y, y ∈ x :: path -> y < length h) ->
    (forall y, y ∈ path -> tc (child h) y x) ->
    rtc (child h) d x ->
    length h <= k + length path ->
    is_Some (render k h x).
Proof.
  intros Hclosed Hacyclic.
  induction k as [ | k IH]; intros x path Hnd Hlt Hpath Hreach Hlen.
  - pose proof (distinct_objects_length _ _ Hnd Hlt) as Hle.
    simpl in Hle, Hlen. lia.
  - simpl.
    destruct (h !! x) as [[name | name cs] | ] eqn:Hx.
    + eauto.
    + assert (Hcs : is_Some (mapM (render k h) cs)).
      { apply mapM_is_Some, Forall_forall. intros c Hc. simpl.
        assert (Hchild : child h x c) by (exists name, cs; split; assumption).
        apply (IH c (x :: path)).
        - apply NoDup_cons. split; [ | exact Hnd].
          intros Hin. apply elem_of_cons in Hin as [-> | Hin].
          + apply (Hacyclic x Hreach). now apply tc_once.
          + apply (Hacyclic c).
            * eapply rtc_r; eassumption.
            * eapply tc_r; [apply Hpath | ]; eassumption.
        - intros y Hy. apply elem_of_cons in Hy as [-> | Hy].
          + exact (Hclosed _ _ Hchild).
          + now apply Hlt.
        - intros y Hy. apply elem_of_cons in Hy as [-> | Hy].
          + now apply tc_once.
          + eapply tc_r; [apply Hpath | ]; eassumption.
        - eapply rtc_r; eassumption.
        - simpl. lia. }
      destruct Hcs as [outs ->]. simpl. eauto.
    + assert (x < length h) by (apply Hlt, list_elem_of_here).
      apply lookup_ge_None in Hx. lia.
Qed.

Lemma render_total (h : list component) (d : loc) :
  closed h -> acyclic_from h d -> d < length h ->
  is_Some (render (length h) h d).
Proof.
  intros Hclosed Hacyclic Hd.
  apply (render_total_aux h d Hclosed Hacyclic (length h) d []).
  - apply NoDup_singleton.
  - intros y Hy. apply list_elem_of_singleton in Hy as ->. exact Hd.
  - intros y Hy. now apply elem_of_nil in Hy.
  - apply rtc_refl.
  - simpl. lia.
Qed.

(** A heap whose directories only hold later objects is closed and has no
    cycle. *)
Lemma forward_closed (h : list component) : forward h -> closed h.
Proof. intros Hf p c Hc. exact (proj2 (Hf p c Hc)). Qed.

Lemma forward_acyclic (h : list component) (d : loc) :
  forward h -> acyclic_from h d.
Proof.
  intros Hf c _ Hcycle.
  assert (Hlt : forall a b, tc (child h) a b -> a < b).
  { intros a b Hab. induction Hab as [a b Hab | a b b' Hab _ IH].
    - exact (proj1 (Hf a b Hab)).
    - apply Hf in Hab. lia. }
  specialize (Hlt c c Hcycle). lia.
Qed.

(** The heaps the constructors and [add] build are closed. *)
Lemma closed_alloc (h : list component) (o : component) :
  closed h ->
  (forall name cs, o = Directory name cs -> cs = []) ->
  closed (h ++ [o]).
Proof.
  intros Hclosed Hleaf p c (name & cs & Hp & Hc).
  rewrite length_app; simpl.
  destruct (decide (p < length h)) as [Hlt | Hge].
  - rewrite lookup_app_l in Hp by exact Hlt.
    assert (c < length h) by (apply (Hclosed p c); now exists name, cs).
    lia.
  - rewrite lookup_app_r in Hp by lia.
    destruct (p - length h) as [ | i]; simpl in Hp; [ | discriminate].
    injection Hp as ->. rewrite (Hleaf name cs eq_refl) in Hc.
    now apply elem_of_nil in Hc.
Qed.

Lemma closed_add (h : list component) (d c : loc) (name : string)
    (cs : list loc) :
  closed h ->
  h !! d = Some (Directory name cs) ->
  c < length h ->
  closed (<[d := Directory name (cs ++ [c])]> h).
Proof.
  intros Hclosed Hd Hc p c' (name' & cs' & Hp & Hc').
  rewrite length_insert.
  destruct (decide (d = p)) as [<- | Hne].
  - rewrite list_lookup_insert_eq in Hp by (eapply lookup_lt_Some; eassumption).
    injection Hp as <- <-.
    apply elem_of_app in Hc' as [Hc' | Hc'].
    + apply (Hclosed d c'). now exists name, cs.
    + apply list_elem_of_singleton in Hc' as ->. exact Hc.
  - rewrite list_lookup_insert_ne in Hp by exact Hne.
    apply (Hclosed p c'). now exists name', cs'.
Qed.

(** The heap the lecture's cells build. *)
Lemma demo_heap_forward :
  forward [Directory "root" [1; 5]; Directory "home" [2];
           Directory "user" [3; 4];
           File "file1.txt"; File "file2.txt"; File "file3.txt"].
Proof.
  intros p c (name & cs & Hp & Hc).
  do 6 (destruct p as [ | p];
        [ simpl in Hp;
          first
            [ discriminate
            | injection Hp as <- <-;
              repeat (apply elem_of_cons in Hc as [-> | Hc]; [simpl; lia | ]);
              now apply elem_of_nil in Hc ]
        | ]).
  simpl in Hp. discriminate.
Qed.

(** C6.  On a directory [d] of a closed heap, whose components form a
    finite tree: each component has its own output (what [show_details]
    prints on it, given depth enough), and [d.show_details()] prints the
    line "Directory: " and [d]'s name, then these outputs in the order of
    the components, which is the order of the [add] calls ([add] appends).
    A file prints the one line "File: " and its name.  The lecture's cells
    print root, home, user, file1.txt, file2.txt, file3.txt. *)
Theorem Composite_show_details :
  (forall (w : world) (d : loc) (name : string) (components : list loc),
     closed (heap w) ->
     acyclic_from (heap w) d ->
     heap w !! d = Some (Directory name components) ->
     exists (outs : list (list string)) (depth : nat),
       Forall2
         (fun c out =>
            forall depth' w',
              depth <= depth' -> heap w' = heap w ->
              show_details depth' c w' = (Ok tt, printed w' out))
         components outs /\
       forall depth',
         depth < depth' ->
         show_details depth' d w =
           (Ok tt, printed w (("Directory: " ++ name)%string :: concat outs))) /\
  (forall (w : world) (d c : loc) (name : string) (components : list loc),
     heap w !! d = Some (Directory name components) ->
     add d c w =
       (Ok tt,
        {| heap := <[d := Directory name (components ++ [c])]> (heap w);
           stdout := stdout w |})) /\
  (forall (w : world) (f : loc) (name : string) (depth : nat),
     heap w !! f = Some (File name) ->
     show_details (S depth) f w =
       (Ok tt, printed w [("File: " ++ name)%string])) /\
  (forall k,
     fst (demo (4 + k) empty) = Ok tt /\
     heap (snd (demo (4 + k) empty)) =
       [Directory "root" [1; 5]; Directory "home" [2]; Directory "user" [3; 4];
        File "file1.txt"; File "file2.txt"; File "file3.txt"] /\
     stdout (snd (demo (4 + k) empty)) =
       ["Directory: root"; "Directory: home"; "Directory: user";
        "File: file1.txt"; "File: file2.txt"; "File: file3.txt"]%string).
Proof.
  split; [ | split; [ | split]].
  - intros w d name cs Hclosed Hacyclic Hd.
    assert (Hlt : d < length (heap w)) by (eapply lookup_lt_Some; eassumption).
    destruct (render_total _ _ Hclosed Hacyclic Hlt) as [lines Hlines].
    destruct (length (heap w)) as [ | depth] eqn:Hlen; [lia | ].
    pose proof Hlines as Hunfold. simpl in Hunfold. rewrite Hd in Hunfold.
    destruct (mapM (render depth (heap w)) cs) as [outs | ] eqn:E;
      simpl in Hunfold; [ | discriminate].
    injection Hunfold as <-. apply mapM_Some in E.
    exists outs, depth. split.
    + eapply Forall2_impl; [exact E | ].
      intros c out Hc depth' w' Hle Hw'.
      apply show_details_render. rewrite Hw'.
      now apply (render_mono _ depth).
    + intros depth' Hle.
      apply show_details_render.
      apply (render_mono _ (S depth)); [lia | exact Hlines].
  - intros w d c name cs Hd. unfold add, deref, store. unfold_M.
    now rewrite Hd.
  - intros w f name depth Hf.
    apply show_details_render. simpl. now rewrite Hf.
  - intros k. repeat split; reflexivity.
Qed.

(** The lecture's tree, shown from its root. *)
Lemma Composite_show_details_witness :
  let w := {| heap := [Directory "root" [1; 5]; Directory "home" [2];
                       Directory "user" [3; 4];
                       File "file1.txt"; File "file2.txt"; File "file3.txt"];
              stdout := [] |} in
  exists (outs : list (list string)) (depth : nat),
    Forall2
      (fun c out =>
         forall depth' w',
           depth <= depth' -> heap w' = heap w ->
           show_details depth' c w' = (Ok tt, printed w' out))
      [1; 5] outs /\
    forall depth',
      depth < depth' ->
      show_details depth' 0 w =
        (Ok tt, printed w ("Directory: root"%string :: concat outs)).
Proof.
  intros w.
  apply (proj1 Composite_show_details w 0 "root" [1; 5]).
  - apply forward_closed, demo_heap_forward.
  - apply forward_acyclic, demo_heap_forward.
  - reflexivity.
Defined.

(** C10.  On a directory [d] with components [components]: when [c] is not
    among them, [d.remove(c)] raises [ValueError] and changes nothing; when
    it is, the call removes its first occurrence, the components before
    and after it keeping their order, and changes no other object. *)
Theorem Composite_remove (w : world) (d c : loc) (name : string)
    (components : list loc) :
  heap w !! d = Some (Directory name components) ->
  (c ∉ components -> remove d c w = (Raise ValueError, w)) /\
  (c ∈ components ->
   exists l1 l2,
     components = l1 ++ c :: l2 /\
     (c ∉ l1) /\
     remove d c w =
       (Ok tt,
        {| heap := <[d := Directory name (l1 ++ l2)]> (heap w);
           stdout := stdout w |})).
Proof.
  intros Hd. unfold remove, deref, store. unfold_M. rewrite Hd.
  split.
  - intros Hc. now rewrite (list_remove_first_absent _ _ Hc).
  - intros Hc.
    destruct (list_remove_first_present _ _ Hc) as (l1 & l2 & E & Hl1 & ->).
    now exists l1, l2.
Qed.

(** A directory holding objects 1, 2, 1: removing 1 leaves 2, 1; removing
    3 raises. *)
Lemma Composite_remove_witness :
  let w := {| heap := [Directory "d" [1; 2; 1]; File "a"; File "b"; File "c"];
              stdout := [] |} in
  remove 0 3 w = (Raise ValueError, w) /\
  exists l1 l2,
    [1; 2; 1] = l1 ++ 1 :: l2 /\
    (1 ∉ l1) /\
    remove 0 1 w =
      (Ok tt,
       {| heap := <[0 := Directory "d" (l1 ++ l2)]> (heap w);
          stdout := stdout w |}).
Proof.
  intros w.
  split.
  - apply (Composite_remove w 0 3 "d" [1; 2; 1] eq_refl).
    intros H. repeat (apply elem_of_cons in H as [H | H]; [lia | ]).
    now apply elem_of_nil in H.
  - apply (Composite_remove w 0 1 "d" [1; 2; 1] eq_refl).
    apply list_elem_of_here.
Defined.

End CompositeProofs.

(** ** Proxy *)

Section ProxyProofs.
Import Py Proxy.

Lemma get_real_video_spec (w : world) (p : loc) (f : string)
    (rv : option loc) :
  heap w !! p = Some (VideoProxy f rv) -> get_real_video p w = (Ok rv, w).
Proof. intros Hp. unfold get_real_video, deref. unfold_M. now rewrite Hp. Qed.

Lemma get_filename_proxy (w : world) (p : loc) (f : string) (rv : option loc) :
  heap w !! p = Some (VideoProxy f rv) -> get_filename p w = (Ok f, w).
Proof. intros Hp. unfold get_filename, deref. unfold_M. now rewrite Hp. Qed.

Lemma get_filename_real (w : world) (r : loc) (f : string) :
  heap w !! r = Some (RealVideo f) -> get_filename r w = (Ok f, w).
Proof. intros Hr. unfold get_filename, deref. unfold_M. now rewrite Hr. Qed.

Lemma set_real_video_spec (w : world) (p : loc) (f : string)
    (rv v : option loc) :
  heap w !! p = Some (VideoProxy f rv) ->
  set_real_video p v w =
  (Ok tt, {| heap := <[p := VideoProxy f v]> (heap w); stdout := stdout w |}).
Proof. intros Hp. unfold set_real_video, deref. unfold_M. now rewrite Hp. Qed.

Lemma RealVideo_play_spec (w : world) (r : loc) (f : string) :
  heap w !! r = Some (RealVideo f) ->
  RealVideo_play r w =
  (Ok tt, {| heap := heap w; stdout := stdout w ++ [playing_line f] |}).
Proof.
  intros Hr. unfold RealVideo_play. unfold_M.
  now rewrite (get_filename_real _ _ _ Hr).
Qed.

(** [RealVideo(filename)] allocates the video and prints the loading line. *)
Lemma RealVideo_call_spec (w : world) (f : string) :
  RealVideo_call f w =
  (Ok (length (heap w)),
   {| heap := heap w ++ [RealVideo f];
      stdout := stdout w ++ [loading_line f] |}).
Proof.
  unfold RealVideo_call, _load_video, alloc. unfold_M.
  rewrite (get_filename_real _ (length (heap w)) f) by apply lookup_last.
  reflexivity.
Qed.

(** The first [play] on a proxy: the video is made and loaded, stored in
    the proxy, and played. *)
Lemma VideoProxy_play_first (w : world) (p : loc) (f : string) :
  heap w !! p = Some (VideoProxy f None) ->
  VideoProxy_play p w =
  (Ok tt,
   {| heap := <[p := VideoProxy f (Some (length (heap w)))]> (heap w)
              ++ [RealVideo f];
      stdout := stdout w ++ [loading_line f; playing_line f] |}).
Proof.
  intros Hp.
  assert (Hlt : p < length (heap w)) by (eapply lookup_lt_Some; eassumption).
  unfold VideoProxy_play. unfold_M.
  rewrite (get_real_video_spec _ _ _ _ Hp).
  rewrite (get_filename_proxy _ _ _ _ Hp).
  rewrite RealVideo_call_spec.
  rewrite (set_real_video_spec _ p f None) by (apply lookup_old, Hp).
  cbn [heap stdout].
  rewrite insert_app_l by exact Hlt.
  rewrite (get_real_video_spec _ p f (Some (length (heap w))))
    by (apply lookup_old, list_lookup_insert_eq, Hlt).
  rewrite (RealVideo_play_spec _ _ f).
  - cbn [heap stdout]. now rewrite <- app_assoc.
  - cbn [heap]. apply list_lookup_middle. now rewrite length_insert.
Qed.

(** A later [play]: the stored video is played, nothing else happens. *)
Lemma VideoProxy_play_later (w : world) (p r : loc) (f : string) :
  heap w !! p = Some (VideoProxy f (Some r)) ->
  heap w !! r = Some (RealVideo f) ->
  VideoProxy_play p w =
  (Ok tt, {| heap := heap w; stdout := stdout w ++ [playing_line f] |}).
Proof.
  intros Hp Hr.
  unfold VideoProxy_play. unfold_M.
  rewrite !(get_real_video_spec _ _ _ _ Hp).
  now rewrite (RealVideo_play_spec _ _ _ Hr).
Qed.

Lemma play_proxy (w : world) (p : loc) (f : string) (rv : option loc) :
  heap w !! p = Some (VideoProxy f rv) -> play p w = VideoProxy_play p w.
Proof. intros Hp. unfold play, deref. unfold_M. now rewrite Hp. Qed.

Lemma plays_later (n : nat) (w : world) (p r : loc) (f : string) :
  heap w !! p = Some (VideoProxy f (Some r)) ->
  heap w !! r = Some (RealVideo f) ->
  plays n p w =
  (Ok tt,
   {| heap := heap w; stdout := stdout w ++ repeat (playing_line f) n |}).
Proof.
  revert w. induction n as [ | n IH]; intros w Hp Hr; simpl.
  - unfold_M. destruct w; simpl. now rewrite app_nil_r.
  - unfold_M. rewrite (play_proxy _ _ _ _ Hp).
    rewrite (VideoProxy_play_later _ _ _ _ Hp Hr).
    rewrite IH by assumption. simpl. now rewrite <- app_assoc.
Qed.

Lemma count_real_videos_store (h : list object) (p : loc) (f g : string)
    (rv rv' : option loc) :
  h !! p = Some (VideoProxy f rv) ->
  count_real_videos (<[p := VideoProxy g rv']> h) = count_real_videos h.
Proof.
  unfold count_real_videos. revert p.
  induction h as [ | o h IH]; intros [ | p]; simpl; try discriminate.
  - now intros [= ->].
  - intros Hp. destruct (is_real_video o); simpl; now rewrite (IH p Hp).
Qed.

Lemma count_real_videos_alloc (h : list object) (o : object) :
  count_real_videos (h ++ [o]) =
  count_real_videos h + (if is_real_video o then 1 else 0).
Proof.
  unfold count_real_videos. rewrite List.filter_app, length_app. simpl.
  now destruct (is_real_video o).
Qed.

(** Any number of plays, the first included. *)
Lemma plays_first (n : nat) (w : world) (p : loc) (f : string) :
  heap w !! p = Some (VideoProxy f None) ->
  plays (S n) p w =
  (Ok tt,
   {| heap := <[p := VideoProxy f (Some (length (heap w)))]> (heap w)
              ++ [RealVideo f];
      stdout := stdout w ++ loading_line f :: repeat (playing_line f) (S n) |}).
Proof.
  intros Hp.
  assert (Hlt : p < length (heap w)) by (eapply lookup_lt_Some; eassumption).
  change (plays (S n) p w) with (mbind (play p) (fun _ => plays n p) w).
  unfold mbind.
  rewrite (play_proxy _ _ _ _ Hp), (VideoProxy_play_first _ _ _ Hp).
  rewrite (plays_later n _ p (length (heap w)) f); simpl.
  - now rewrite <- app_assoc.
  - apply lookup_old, list_lookup_insert_eq, Hlt.
  - apply list_lookup_middle. now rewrite length_insert.
Qed.

Lemma loading_is_not_playing (f : string) : loading_line f <> playing_line f.
Proof.
  intros H. apply (f_equal (String.get 11)) in H. cbv in H. discriminate H.
Qed.

Lemma count_loading_line (f : string) (m : nat) :
  count_line (loading_line f) (loading_line f :: repeat (playing_line f) m) = 1.
Proof.
  pose proof (proj2 (String.eqb_neq _ _) (loading_is_not_playing f)) as E.
  unfold count_line.
  set (L := loading_line f) in *. set (P := playing_line f) in *.
  clearbody L P.
  simpl. rewrite String.eqb_refl. simpl. f_equal.
  induction m as [ | m IH]; simpl; [reflexivity | ].
  now rewrite E.
Qed.

(** C9.  [VideoProxy(f)] makes a proxy whose [_real_video] is [None]; it
    makes no [RealVideo] and prints nothing.  On such a proxy, there is one
    object [r] such that after any number [n + 1] of [play()] calls the
    proxy's [_real_video] is [r], [r] is a [RealVideo] with filename [f],
    the heap holds exactly one object and one [RealVideo] more than before
    the first call, and the console got the loading line once, before
    [n + 1] playing lines. *)
Theorem Proxy_loads_once :
  (forall (w : world) (f : string),
     exists p w0,
       VideoProxy_call f w = (Ok p, w0) /\
       heap w0 !! p = Some (VideoProxy f None) /\
       count_real_videos (heap w0) = count_real_videos (heap w) /\
       stdout w0 = stdout w) /\
  (forall (w : world) (p : loc) (f : string),
     heap w !! p = Some (VideoProxy f None) ->
     plays 0 p w = (Ok tt, w) /\
     exists r,
       forall n,
         exists wn out,
           plays (S n) p w = (Ok tt, wn) /\
           heap wn !! p = Some (VideoProxy f (Some r)) /\
           heap wn !! r = Some (RealVideo f) /\
           length (heap wn) = S (length (heap w)) /\
           count_real_videos (heap wn) = S (count_real_videos (heap w)) /\
           stdout wn = stdout w ++ out /\
           out = loading_line f :: repeat (playing_line f) (S n) /\
           count_line (loading_line f) out = 1).
Proof.
  split.
  - intros w f. unfold VideoProxy_call, alloc.
    eexists _, _. split; [reflexivity | ]. cbn [heap stdout].
    split; [apply lookup_last | ].
    split; [ | reflexivity].
    rewrite count_real_videos_alloc. simpl. lia.
  - intros w p f Hp.
    assert (Hlt : p < length (heap w)) by (eapply lookup_lt_Some; eassumption).
    split; [reflexivity | ].
    exists (length (heap w)). intros n.
    eexists _, _. split; [apply (plays_first n w p f Hp) | ]. cbn [heap stdout].
    split; [apply lookup_old, list_lookup_insert_eq, Hlt | ].
    split; [apply list_lookup_middle; now rewrite length_insert | ].
    split; [rewrite length_app, length_insert; simpl; lia | ].
    split.
    { rewrite count_real_videos_alloc, (count_real_videos_store _ _ _ _ _ _ Hp).
      simpl. lia. }
    split; [reflexivity | ].
    split; [reflexivity | apply count_loading_line].
Qed.

(** The lecture's proxy, played three times. *)
Lemma Proxy_loads_once_witness :
  let w := {| heap := [VideoProxy "example.mp4" None]; stdout := [] |} in
  exists r wn,
    plays 3 0 w = (Ok tt, wn) /\
    heap wn !! 0 = Some (VideoProxy "example.mp4" (Some r)) /\
    heap wn !! r = Some (RealVideo "example.mp4") /\
    count_real_videos (heap wn) = 1 /\
    stdout wn =
      ["RealVideo: Loading video example.mp4";
       "RealVideo: Playing video example.mp4";
       "RealVideo: Playing video example.mp4";
       "RealVideo: Playing video example.mp4"]%string.
Proof.
  intros w.
  destruct (proj2 Proxy_loads_once w 0 "example.mp4"%string eq_refl)
    as (_ & r & Hplays).
  destruct (Hplays 2) as (wn & out & Hrun & Hp & Hr & _ & Hcount & Hout & -> & _).
  exists r, wn. repeat split; assumption.
Defined.

End ProxyProofs.

(* ===================================================================== *)
(** * Part III: further properties of the lectures' code                  *)
(* ===================================================================== *)

(** ** Composite: frames, invariants, cycles *)

Section CompositeMore.
Import Py Composite.

(** A loop whose body keeps the heap and only adds to the console does so
    itself, whatever its outcome. *)
Lemma for_each_frame (body : loc -> M world unit) :
  (forall x w,
     heap (snd (body x w)) = heap w /\
     exists out, stdout (snd (body x w)) = stdout w ++ out) ->
  forall xs w,
    heap (snd (for_each xs body w)) = heap w /\
    exists out, stdout (snd (for_each xs body w)) = stdout w ++ out.
Proof.
  intros Hbody xs. induction xs as [ | x xs IH]; intros w; simpl.
  - split; [reflexivity | exists []; now rewrite app_nil_r].
  - unfold_M. destruct (Hbody x w) as (Hh & out & Hout).
    destruct (body x w) as [[[] | e] w1]; simpl in *.
    + destruct (IH w1) as (Hh' & out' & Hout').
      split; [congruence | ].
      exists (out ++ out'). now rewrite Hout', Hout, app_assoc.
    + split; [exact Hh | now exists out].
Qed.

Lemma show_details_frame (depth : nat) (self : loc) (w : world) :
  heap (snd (show_details depth self w)) = heap w /\
  exists out, stdout (snd (show_details depth self w)) = stdout w ++ out.
Proof.
  revert self w. induction depth as [ | depth IH]; intros self w; simpl.
  - split; [reflexivity | exists []; now rewrite app_nil_r].
  - unfold deref. unfold_M.
    destruct (heap w !! self) as [[name | name cs] | ]; simpl.
    + split; [reflexivity | now eexists].
    + destruct (for_each_frame (show_details depth) IH cs
                  {| heap := heap w;
                     stdout := stdout w ++ [("Directory: " ++ name)%string] |})
        as (Hh & out & Hout).
      simpl in Hh, Hout.
      destruct (for_each cs (show_details depth) _) as [[[] | e] w1];
        simpl in *; (split; [exact Hh | ]);
        exists (("Directory: " ++ name)%string :: out);
        now rewrite Hout, <- app_assoc.
    + split; [reflexivity | exists []; now rewrite app_nil_r].
Qed.

(** X1.  Whatever its outcome, at whatever depth, [show_details] leaves
    the heap as it was and keeps what the console held, adding lines after
    it. *)
Theorem Composite_show_details_frame (depth : nat) (self : loc) (w : world) :
  heap (snd (show_details depth self w)) = heap w /\
  exists out, stdout (snd (show_details depth self w)) = stdout w ++ out.
Proof. apply show_details_frame. Qed.

(** A loop that raises does so in the body, at one of its items, on a
    store with the same heap. *)
Lemma for_each_raises (body : loc -> M world unit) :
  (forall x w, heap (snd (body x w)) = heap w) ->
  forall xs w e w',
    for_each xs body w = (Raise e, w') ->
    exists x w2,
      x ∈ xs /\ heap w2 = heap w /\ body x w2 = (Raise e, w').
Proof.
  intros Hbody xs. induction xs as [ | x xs IH]; intros w e w'; simpl.
  - unfold_M. discriminate.
  - unfold_M. pose proof (Hbody x w) as Hh.
    destruct (body x w) as [[[] | e0] w1] eqn:Hx; simpl in Hh.
    + intros Hrest. destruct (IH _ _ _ Hrest) as (y & w2 & Hy & Hw2 & Hbody2).
      exists y, w2. split; [now apply list_elem_of_further | ].
      split; [congruence | exact Hbody2].
    + intros [= <- <-]. exists x, w.
      split; [apply list_elem_of_here | now split].
Qed.

(** When the body raises at one item on every store with a given heap,
    the loop raises on every such store. *)
Lemma for_each_fails (body : loc -> M world unit) (h : list component)
    (y : loc) :
  (forall x w, heap (snd (body x w)) = heap w) ->
  (forall w, heap w = h -> exists e w', body y w = (Raise e, w')) ->
  forall xs, y ∈ xs ->
    forall w, heap w = h -> exists e w', for_each xs body w = (Raise e, w').
Proof.
  intros Hbody Hy xs. induction xs as [ | x xs IH]; intros Hin w Hw.
  - now apply elem_of_nil in Hin.
  - simpl. unfold_M. pose proof (Hbody x w) as Hh.
    destruct (body x w) as [[[] | e0] w1] eqn:Hx; simpl in Hh;
      [ | now eauto].
    apply elem_of_cons in Hin as [-> | Hin].
    + destruct (Hy w Hw) as (e & w' & Hraise). congruence.
    + apply IH; [exact Hin | congruence].
Qed.

(** In a closed heap the only exception [show_details] raises is
    [RecursionError]. *)
Lemma show_details_only_RecursionError (h : list component) :
  closed h ->
  forall depth x w e w',
    heap w = h -> x < length h ->
    show_details depth x w = (Raise e, w') -> e = RecursionError.
Proof.
  intros Hclosed.
  induction depth as [ | depth IH]; intros x w e w' Hw Hx; simpl.
  - unfold_M. now intros [= <- _].
  - unfold deref. unfold_M.
    destruct (heap w !! x) as [[name | name cs] | ] eqn:Hlook; simpl.
    + discriminate.
    + intros Hloop.
      apply (for_each_raises (show_details depth)) in Hloop
        as (c & w2 & Hc & Hw2 & Hraise);
        [ | intros y w0; apply show_details_frame].
      simpl in Hw2. apply (IH c w2 e w'); [congruence | | exact Hraise].
      apply (Hclosed x c). exists name, cs. split; [congruence | exact Hc].
    + apply lookup_ge_None in Hlook. rewrite Hw in Hlook. lia.
Qed.

(** An object that reaches a cycle has a component that reaches it too. *)
Lemma reaches_cycle_step (h : list component) (x : loc) :
  (exists c, rtc (child h) x c /\ tc (child h) c c) ->
  exists y, child h x y /\ exists c, rtc (child h) y c /\ tc (child h) c c.
Proof.
  intros (c & Hreach & Hcycle).
  destruct Hreach as [x | x x' c Hstep Hreach].
  - inversion Hcycle as [? y Hxy | ? y ? Hxy Hyx]; subst.
    + exists x. split; [exact Hxy | ]. exists x. split; [apply rtc_refl | exact Hcycle].
    + exists y. split; [exact Hxy | ]. exists x.
      split; [now apply tc_rtc | exact Hcycle].
  - exists x'. split; [exact Hstep | ]. now exists c.
Qed.

(** X2.  The converse of the finite-tree case: in a closed heap, on an
    object that reaches a cycle (a directory added to itself, or to one of
    its descendants), [show_details] raises [RecursionError] at every
    depth; it never returns. *)
Theorem Composite_show_details_cycle (h : list component) (d : loc) :
  closed h ->
  d < length h ->
  (exists c, rtc (child h) d c /\ tc (child h) c c) ->
  forall depth w,
    heap w = h -> fst (show_details depth d w) = Raise RecursionError.
Proof.
  intros Hclosed Hd Hcycle depth w Hw.
  assert (Hfails : forall depth x,
            (exists c, rtc (child h) x c /\ tc (child h) c c) ->
            forall w, heap w = h ->
              exists e w', show_details depth x w = (Raise e, w')).
  { clear. induction depth as [ | depth IH]; intros x Hx w Hw.
    - simpl. unfold_M. eauto.
    - destruct (reaches_cycle_step h x Hx) as (y & (name & cs & Hlook & Hy) & Hyc).
      simpl. unfold deref. unfold_M. rewrite Hw, Hlook. simpl.
      apply (for_each_fails (show_details depth) h y).
      + intros z w0. apply show_details_frame.
      + now apply IH.
      + exact Hy.
      + simpl. exact Hw. }
  destruct (Hfails depth d Hcycle w Hw) as (e & w' & Hraise).
  rewrite Hraise. simpl. f_equal.
  eapply show_details_only_RecursionError; eassumption.
Qed.

(** A directory added to itself. *)
Lemma Composite_show_details_cycle_witness :
  fst (show_details 7 0 {| heap := [Directory "d" [0]]; stdout := [] |})
    = Raise RecursionError.
Proof.
  assert (Hchild : child [Directory "d" [0]] 0 0).
  { exists "d"%string, [0]. split; [reflexivity | apply list_elem_of_here]. }
  apply (Composite_show_details_cycle [Directory "d" [0]] 0).
  - intros p c (name & cs & Hp & Hc).
    destruct p as [ | p]; simpl in Hp; [ | discriminate].
    injection Hp as <- <-. apply list_elem_of_singleton in Hc as ->.
    simpl. lia.
  - simpl. lia.
  - exists 0. split; [apply rtc_refl | now apply tc_once].
  - reflexivity.
Defined.

Lemma list_remove_first_subset (x : loc) (l l' : list loc) :
  list_remove_first x l = Some l' -> forall y, y ∈ l' -> y ∈ l.
Proof.
  revert l'. induction l as [ | z l IH]; intros l'; simpl; [discriminate | ].
  destruct (decide (z = x)) as [-> | Hne].
  - intros [= <-] y Hy. now apply list_elem_of_further.
  - destruct (list_remove_first x l) as [r | ]; [ | discriminate].
    intros [= <-] y Hy. apply elem_of_cons in Hy as [-> | Hy].
    + apply list_elem_of_here.
    + apply list_elem_of_further. now apply (IH r).
Qed.

Lemma closed_remove (h : list component) (d : loc) (name : string)
    (cs cs' : list loc) (c : loc) :
  closed h ->
  h !! d = Some (Directory name cs) ->
  list_remove_first c cs = Some cs' ->
  closed (<[d := Directory name cs']> h).
Proof.
  intros Hclosed Hd Hrem p c' (name' & cs'' & Hp & Hc').
  rewrite length_insert.
  destruct (decide (d = p)) as [<- | Hne].
  - rewrite list_lookup_insert_eq in Hp by (eapply lookup_lt_Some; eassumption).
    injection Hp as <- <-.
    apply (Hclosed d c'). exists name, cs.
    split; [exact Hd | eapply list_remove_first_subset; eassumption].
  - rewrite list_lookup_insert_ne in Hp by exact Hne.
    apply (Hclosed p c'). now exists name', cs''.
Qed.

(** X3.  Every component of a directory is an object of the heap: this
    holds of the empty heap and is kept by [File(name)], [Directory(name)],
    [add] of an existing object and [remove], whether they return or
    raise. *)
Theorem Composite_closed_invariant :
  closed (heap empty) /\
  forall w : world,
    closed (heap w) ->
    (forall name, closed (heap (snd (File_call name w)))) /\
    (forall name, closed (heap (snd (Directory_call name w)))) /\
    (forall d c, c < length (heap w) -> closed (heap (snd (add d c w)))) /\
    (forall d c, closed (heap (snd (remove d c w)))).
Proof.
  split.
  { intros p c (name & cs & Hp & _). simpl in Hp. discriminate. }
  intros w Hclosed.
  split; [ | split; [ | split]].
  - intros name. simpl. apply closed_alloc; [exact Hclosed | discriminate].
  - intros name. simpl. apply closed_alloc; [exact Hclosed | ].
    now intros name' cs [= _ <-].
  - intros d c Hc. unfold add, deref, store. unfold_M.
    destruct (heap w !! d) as [[name | name cs] | ] eqn:Hd; simpl;
      [exact Hclosed | | exact Hclosed].
    now apply closed_add.
  - intros d c. unfold remove, deref, store. unfold_M.
    destruct (heap w !! d) as [[name | name cs] | ] eqn:Hd; simpl;
      [exact Hclosed | | exact Hclosed].
    destruct (list_remove_first c cs) as [cs' | ] eqn:Hrem; simpl;
      [ | exact Hclosed].
    eapply closed_remove; eassumption.
Qed.

(** Two objects made in the empty heap, the second added to the first. *)
Lemma Composite_closed_invariant_witness :
  let w := {| heap := [Directory "d" []; File "f"]; stdout := [] |} in
  heap (snd (add 0 1 w)) = [Directory "d" [1]; File "f"] /\
  closed (heap (snd (add 0 1 w))).
Proof.
  intros w. split; [reflexivity | ].
  pose proof (proj1 Composite_closed_invariant) as H0.
  pose proof (proj1 (proj2 (proj2 Composite_closed_invariant _ H0)) "d"%string)
    as H1.
  pose proof (proj1 (proj2 Composite_closed_invariant _ H1) "f"%string) as H2.
  apply (proj1 (proj2 (proj2 (proj2 Composite_closed_invariant _ H2))) 0 1).
  simpl. lia.
Defined.

Lemma list_remove_first_middle (x : loc) (l1 l2 : list loc) :
  x ∉ l1 -> list_remove_first x (l1 ++ x :: l2) = Some (l1 ++ l2).
Proof.
  induction l1 as [ | y l1 IH]; simpl; intros Hx.
  - destruct (decide (x = x)); [reflexivity | congruence].
  - apply not_elem_of_cons in Hx as [Hne Hx].
    destruct (decide (y = x)) as [-> | _]; [congruence | ].
    now rewrite IH.
Qed.

Lemma add_then_remove (w : world) (d c : loc) (name : string)
    (cs : list loc) :
  heap w !! d = Some (Directory name cs) ->
  exists cs',
    list_remove_first c (cs ++ [c]) = Some cs' /\
    mbind (add d c) (fun _ => remove d c) w =
      (Ok tt,
       {| heap := <[d := Directory name cs']> (heap w); stdout := stdout w |}).
Proof.
  intros Hd.
  assert (Hlt : d < length (heap w)) by (eapply lookup_lt_Some; eassumption).
  assert (Hsome : exists cs', list_remove_first c (cs ++ [c]) = Some cs').
  { destruct (list_remove_first_present c (cs ++ [c])) as (l1 & l2 & _ & _ & E).
    - apply elem_of_app. right. apply list_elem_of_here.
    - eauto. }
  destruct Hsome as [cs' Hcs']. exists cs'. split; [exact Hcs' | ].
  unfold add, remove, deref, store. unfold_M. rewrite Hd. simpl.
  rewrite list_lookup_insert_eq by exact Hlt.
  rewrite Hcs'. simpl. now rewrite list_insert_insert_eq.
Qed.

(** X4.  On a directory, [add(c)] followed by [remove(c)] always succeeds.
    When [c] was not a component before, the two calls cancel and the
    state is what it was.  When it was, [remove] takes out the earlier
    occurrence, not the one just added: [c] is still a component, now the
    last one. *)
Theorem Composite_add_then_remove (w : world) (d c : loc) (name : string)
    (cs : list loc) :
  heap w !! d = Some (Directory name cs) ->
  (c ∉ cs -> mbind (add d c) (fun _ => remove d c) w = (Ok tt, w)) /\
  (forall l1 l2,
     cs = l1 ++ c :: l2 -> c ∉ l1 ->
     mbind (add d c) (fun _ => remove d c) w =
       (Ok tt,
        {| heap := <[d := Directory name (l1 ++ l2 ++ [c])]> (heap w);
           stdout := stdout w |})).
Proof.
  intros Hd.
  destruct (add_then_remove w d c name cs Hd) as (cs' & Hcs' & Hrun).
  split.
  - intros Hc.
    rewrite <- (app_nil_r (cs ++ [c])), <- app_assoc in Hcs'. simpl in Hcs'.
    rewrite (list_remove_first_middle c cs [] Hc), app_nil_r in Hcs'.
    injection Hcs' as <-. rewrite Hrun.
    rewrite list_insert_id by exact Hd. now destruct w.
  - intros l1 l2 -> Hl1.
    rewrite <- app_assoc in Hcs'. simpl in Hcs'.
    rewrite (list_remove_first_middle c l1 (l2 ++ [c]) Hl1) in Hcs'.
    injection Hcs' as <-. exact Hrun.
Qed.

(** A directory holding objects 1 and 2: adding and removing 3 changes
    nothing; adding and removing 1 moves it behind 2. *)
Lemma Composite_add_then_remove_witness :
  let w := {| heap := [Directory "d" [1; 2]; File "a"; File "b"; File "c"];
              stdout := [] |} in
  mbind (add 0 3) (fun _ => remove 0 3) w = (Ok tt, w) /\
  mbind (add 0 1) (fun _ => remove 0 1) w =
    (Ok tt,
     {| heap := [Directory "d" [2; 1]; File "a"; File "b"; File "c"];
        stdout := [] |}).
Proof.
  intros w. split.
  - apply (proj1 (Composite_add_then_remove w 0 3 "d" [1; 2] eq_refl)).
    intros H. repeat (apply elem_of_cons in H as [H | H]; [lia | ]).
    now apply elem_of_nil in H.
  - apply (proj2 (Composite_add_then_remove w 0 1 "d" [1; 2] eq_refl) [] [2]).
    + reflexivity.
    + apply not_elem_of_nil.
Defined.

End CompositeMore.

(** ** Singleton: logging through the one instance *)

Section SingletonMore.
Import Py Singleton.

Lemma Logger_call_opens : Logger_call true initial = (Ok (Some 0), opened [] false).
Proof. now rewrite (Logger_call_first initial eq_refl). Qed.

Lemma log_message_open (c : bool) (m : string) (text : list string) :
  log_message c m (opened text false) =
  (Ok tt, opened (text ++ [log_entry m]) false).
Proof.
  unfold log_message. unfold_M.
  now rewrite (Logger_call_again (opened text false) 0 c eq_refl).
Qed.

Lemma log_message_closed (c : bool) (m : string) (text : list string) :
  log_message c m (opened text true) = (Raise ValueError, opened text true).
Proof.
  unfold log_message. unfold_M.
  now rewrite (Logger_call_again (opened text true) 0 c eq_refl).
Qed.

Lemma close_logger_opened (c : bool) (text : list string) (b : bool) :
  close_logger c (opened text b) = (Ok tt, opened text true).
Proof.
  unfold close_logger. unfold_M.
  now rewrite (Logger_call_again (opened text b) 0 c eq_refl).
Qed.

Lemma log_messages_open (msgs : list (bool * string)) :
  forall text,
    log_messages msgs (opened text false) =
    (Ok tt, opened (text ++ map (fun cm => log_entry (snd cm)) msgs) false).
Proof.
  induction msgs as [ | [c m] msgs IH]; intros text; simpl.
  - unfold_M. now rewrite app_nil_r.
  - unfold_M. rewrite log_message_open, IH. now rewrite <- app_assoc.
Qed.

Lemma log_messages_initial (m0 : string) (msgs : list (bool * string)) :
  log_messages ((true, m0) :: msgs) initial =
  (Ok tt,
   opened (log_entry m0 :: map (fun cm => log_entry (snd cm)) msgs) false).
Proof.
  assert (Hfirst : log_message true m0 initial
                   = (Ok tt, opened [log_entry m0] false)).
  { unfold log_message. unfold_M. now rewrite Logger_call_opens. }
  change (log_messages ((true, m0) :: msgs) initial)
    with (match log_message true m0 initial with
          | (Ok _, w) => log_messages msgs w
          | (Raise e, w) => (Raise e, w)
          end).
  now rewrite Hfirst, log_messages_open.
Qed.

(** X5.  Messages logged through [Logger()] references, however many
    references are taken, all land in one file, each followed by a line
    feed, in the order of the calls; one logger and one file exist
    afterwards. *)
Theorem Singleton_log_order (m0 : string) (msgs : list (bool * string)) :
  exists w,
    log_messages ((true, m0) :: msgs) initial = (Ok tt, w) /\
    files w =
      [{| written := map log_entry (m0 :: map snd msgs); closed := false |}] /\
    heap w = [{| _log_file := Some 0 |}].
Proof.
  eexists. split; [apply log_messages_initial | ].
  split; [ | reflexivity]. simpl. now rewrite map_map.
Qed.

(** X6.  Closing is for good and for everyone: after [Logger().close()]
    every later [Logger()] still returns the same instance, whose file
    stays closed; every later [log] raises [ValueError] and writes
    nothing; closing again is harmless. *)
Theorem Singleton_close_is_final (m0 : string) (msgs : list (bool * string))
    (c : bool) :
  exists w,
    mbind (log_messages ((true, m0) :: msgs)) (fun _ => close_logger c) initial
      = (Ok tt, w) /\
    files w =
      [{| written := map log_entry (m0 :: map snd msgs); closed := true |}] /\
    forall c' m,
      Logger_call c' w = (Ok (Some 0), w) /\
      log_message c' m w = (Raise ValueError, w) /\
      close_logger c' w = (Ok tt, w).
Proof.
  eexists. split.
  { unfold mbind. rewrite log_messages_initial. apply close_logger_opened. }
  split; [simpl; now rewrite map_map | ].
  intros c' m.
  split; [now apply Logger_call_again | ].
  split; [apply log_message_closed | apply close_logger_opened].
Qed.

(** X7.  When the first [Logger()] cannot open the file, the exception
    escapes but the instance is already stored: every later [Logger()]
    returns it without trying to open the file again, and [log] and
    [close] on it raise [AttributeError]. *)
Theorem Singleton_failed_open_sticks :
  exists w,
    Logger_call false initial = (Raise OSError, w) /\
    forall c m,
      Logger_call c w = (Ok (Some 0), w) /\
      files w = [] /\
      log_message c m w = (Raise AttributeError, w) /\
      close_logger c w = (Raise AttributeError, w).
Proof.
  eexists. split; [apply (Logger_call_first_fails initial eq_refl) | ].
  intros c m.
  split; [now apply Logger_call_again | ].
  split; [reflexivity | ].
  unfold log_message, close_logger. unfold_M.
  rewrite (Logger_call_again _ 0 c) by reflexivity.
  now split.
Qed.

End SingletonMore.

(** ** Builder: the director, and builders that do not share *)

Section BuilderMore.
Import Py Builder.

(** The three building steps on a builder [b] whose product is [p] amount
    to one write into [p]. *)
Lemma build_parts (v1 v2 v3 : value) (h : heap) (b p : loc) (x : Product) :
  h !! b = Some (OBuilder p) ->
  h !! p = Some (OProduct x) ->
  (build_part1 b v1 ;;; build_part2 b v2 ;;; build_part3 b v3)%py h =
  (Ok tt, <[p := OProduct {| part1 := v1; part2 := v2; part3 := v3 |}]> h).
Proof.
  intros Hb Hp.
  assert (Hne : p <> b) by congruence.
  assert (Hlt : p < length h) by (eapply lookup_lt_Some; eassumption).
  unfold build_part1, build_part2, build_part3, get_product_attr, set_part.
  unfold_M. rewrite Hb, Hp.
  rewrite (list_lookup_insert_ne h p b) by exact Hne. rewrite Hb.
  rewrite list_lookup_insert_eq by exact Hlt.
  rewrite list_insert_insert_eq.
  rewrite (list_lookup_insert_ne h p b) by exact Hne. rewrite Hb.
  rewrite list_lookup_insert_eq by exact Hlt.
  now rewrite list_insert_insert_eq.
Qed.

(** X8.  [Director.construct] on a builder writes all three parts of the
    builder's product, whatever they were, and touches no other object;
    [get_product] then returns that product and it reads as
    constructed. *)
Theorem Builder_construct (h : heap) (b p : loc) (x : Product)
    (v1 v2 v3 : value) :
  h !! b = Some (OBuilder p) ->
  h !! p = Some (OProduct x) ->
  exists h',
    mbind (Director_call b) (fun director => construct director v1 v2 v3) h
      = (Ok tt, h') /\
    h' = <[p := OProduct {| part1 := v1; part2 := v2; part3 := v3 |}]> h /\
    get_product b h' = (Ok p, h') /\
    parts p h' = (Ok (v1, v2, v3), h').
Proof.
  intros Hb Hp.
  assert (Hne : p <> b) by congruence.
  assert (Hlt : p < length h) by (eapply lookup_lt_Some; eassumption).
  eexists. split.
  { unfold Director_call, construct. unfold mbind at 1. unfold ret. simpl.
    apply (build_parts v1 v2 v3 h b p x Hb Hp). }
  split; [reflexivity | ].
  unfold get_product, get_product_attr, parts.
  rewrite list_lookup_insert_ne by exact Hne. rewrite Hb.
  rewrite list_lookup_insert_eq by exact Hlt.
  now split.
Qed.

(** A builder made in the empty heap, directed once. *)
Lemma Builder_construct_witness :
  let h := snd (Builder_call []) in
  exists h',
    mbind (Director_call 1)
      (fun director => construct director (VStr "a") (VStr "b") (VStr "c")) h
      = (Ok tt, h') /\
    h' = <[0 := OProduct {| part1 := VStr "a"; part2 := VStr "b";
                            part3 := VStr "c" |}]> h /\
    get_product 1 h' = (Ok 0, h') /\
    parts 0 h' = (Ok (VStr "a", VStr "b", VStr "c"), h').
Proof.
  intros h.
  apply (Builder_construct h 1 0
           {| part1 := VNone; part2 := VNone; part3 := VNone |});
    reflexivity.
Defined.

(** [MealBuilder()] only appends to the heap. *)
Lemma MealBuilder_call_frame (h : heap) :
  exists m b p h0,
    MealBuilder_call h = (Ok m, h0) /\
    meal_builder_at h0 m b p
      {| part1 := VNone; part2 := VNone; part3 := VNone |} /\
    length h <= p /\
    (forall q o, h !! q = Some o -> h0 !! q = Some o).
Proof.
  unfold MealBuilder_call, Builder_call, Product_call, alloc. unfold_M.
  eexists _, _, _, _. split; [reflexivity | ].
  split.
  { split; [apply lookup_last | ].
    split; [apply lookup_old, lookup_last | ].
    apply lookup_old, lookup_old, lookup_last. }
  split; [lia | ].
  intros q o Hq. now apply lookup_old, lookup_old, lookup_old.
Qed.

(** A [prepare_*] method amounts to one write into the product. *)
Lemma prepare_steps_heap (v1 v2 v3 : value) (h : heap) (m b p : loc)
    (x : Product) :
  meal_builder_at h m b p x ->
  (b <- get_builder_attr m ;; build_part1 b v1 ;;;
   b <- get_builder_attr m ;; build_part2 b v2 ;;;
   b <- get_builder_attr m ;; build_part3 b v3 ;;;
   b <- get_builder_attr m ;; get_product b)%py h =
  (Ok p, <[p := OProduct {| part1 := v1; part2 := v2; part3 := v3 |}]> h).
Proof.
  intros H.
  unfold build_part1, build_part2, build_part3, get_product.
  unfold_M.
  destruct (build_step
              (fun x => {| part1 := v1; part2 := part2 x; part3 := part3 x |})
              _ _ _ _ _ H)
    as (Hm1 & Hb1 & Hs1 & H1).
  rewrite Hm1, Hb1, Hs1.
  destruct (build_step
              (fun x => {| part1 := part1 x; part2 := v2; part3 := part3 x |})
              _ _ _ _ _ H1)
    as (Hm2 & Hb2 & Hs2 & H2).
  rewrite Hm2, Hb2, Hs2.
  destruct (build_step
              (fun x => {| part1 := part1 x; part2 := part2 x; part3 := v3 |})
              _ _ _ _ _ H2)
    as (Hm3 & Hb3 & Hs3 & H3).
  rewrite Hm3, Hb3, Hs3.
  destruct (build_step (fun x => x) _ _ _ _ _ H3) as (Hm4 & Hb4 & _ & _).
  rewrite Hm4, Hb4. simpl.
  now rewrite !list_insert_insert_eq.
Qed.

(** X9.  Two [MealBuilder()] instances do not share a product: the meal
    prepared by the first keeps its parts when the second prepares
    another, and the two meals are different objects. *)
Theorem Builder_separate_meal_builders (h : heap) :
  exists m1 m2 veg_meal non_veg_meal h1 h2 h3 h4,
    MealBuilder_call h = (Ok m1, h1) /\
    MealBuilder_call h1 = (Ok m2, h2) /\
    prepare_veg_meal m1 h2 = (Ok veg_meal, h3) /\
    prepare_non_veg_meal m2 h3 = (Ok non_veg_meal, h4) /\
    veg_meal <> non_veg_meal /\
    parts veg_meal h4 =
      (Ok (VStr "Salad", VStr "Vegetable Curry", VStr "Rice"), h4) /\
    parts non_veg_meal h4 =
      (Ok (VStr "Chicken Soup", VStr "Grilled Chicken",
           VStr "Chicken Tikka"), h4).
Proof.
  destruct (MealBuilder_call_frame h)
    as (m1 & b1 & p1 & h1 & Hcall1 & (Hm1 & Hb1 & Hp1) & _ & _).
  destruct (MealBuilder_call_frame h1)
    as (m2 & b2 & p2 & h2 & Hcall2 & (Hm2 & Hb2 & Hp2) & Hfresh & Hold).
  assert (Hp1lt : p1 < length h1) by (eapply lookup_lt_Some; eassumption).
  assert (Hne : p1 <> p2) by lia.
  assert (H1 : meal_builder_at h2 m1 b1 p1
                 {| part1 := VNone; part2 := VNone; part3 := VNone |})
    by (repeat split; now apply Hold).
  destruct H1 as (Hm1' & Hb1' & Hp1').
  pose proof (prepare_steps_heap (VStr "Salad") (VStr "Vegetable Curry")
                (VStr "Rice") h2 m1 b1 p1 _ (conj Hm1' (conj Hb1' Hp1')))
    as Hveg.
  set (h3 := <[p1 := OProduct {| part1 := VStr "Salad";
                                 part2 := VStr "Vegetable Curry";
                                 part3 := VStr "Rice" |}]> h2) in *.
  assert (H2 : meal_builder_at h3 m2 b2 p2
                 {| part1 := VNone; part2 := VNone; part3 := VNone |}).
  { unfold h3. repeat split;
      (rewrite list_lookup_insert_ne by congruence); assumption. }
  pose proof (prepare_steps_heap (VStr "Chicken Soup") (VStr "Grilled Chicken")
                (VStr "Chicken Tikka") h3 m2 b2 p2 _ H2) as Hnon.
  exists m1, m2, p1, p2, h1, h2, h3. eexists.
  split; [exact Hcall1 | ].
  split; [exact Hcall2 | ].
  split; [exact Hveg | ].
  split; [exact Hnon | ].
  split; [exact Hne | ].
  unfold parts. split.
  - rewrite list_lookup_insert_ne by congruence.
    unfold h3. rewrite list_lookup_insert_eq; [reflexivity | ].
    eapply lookup_lt_Some; eassumption.
  - rewrite list_lookup_insert_eq; [reflexivity | ].
    unfold h3. rewrite length_insert. eapply lookup_lt_Some; eassumption.
Qed.

End BuilderMore.

(** ** Proxy: several proxies, stacked proxies *)

Section ProxyMore.
Import Py Proxy.

(** X10.  Proxies do not share: playing one proxy leaves every other proxy
    as it was (still without a video), and a second proxy, even for the
    same file, loads a video of its own when it is first played. *)
Theorem Proxy_proxies_are_independent (w : world) (p q : loc) (f g : string)
    (n : nat) :
  p <> q ->
  heap w !! p = Some (VideoProxy f None) ->
  heap w !! q = Some (VideoProxy g None) ->
  exists w1 w2 r r',
    plays (S n) p w = (Ok tt, w1) /\
    heap w1 !! q = Some (VideoProxy g None) /\
    plays 1 q w1 = (Ok tt, w2) /\
    heap w2 !! p = Some (VideoProxy f (Some r)) /\
    heap w2 !! q = Some (VideoProxy g (Some r')) /\
    r <> r' /\
    count_real_videos (heap w2) = 2 + count_real_videos (heap w) /\
    stdout w2 =
      stdout w ++ (loading_line f :: repeat (playing_line f) (S n))
               ++ [loading_line g; playing_line g].
Proof.
  intros Hne Hp Hq.
  assert (Hplt : p < length (heap w)) by (eapply lookup_lt_Some; eassumption).
  assert (Hqlt : q < length (heap w)) by (eapply lookup_lt_Some; eassumption).
  pose proof (plays_first n w p f Hp) as Hrun1.
  set (w1 := {| heap := <[p := VideoProxy f (Some (length (heap w)))]> (heap w)
                        ++ [RealVideo f];
                stdout := stdout w ++ loading_line f
                            :: repeat (playing_line f) (S n) |}) in *.
  assert (Hq1 : heap w1 !! q = Some (VideoProxy g None)).
  { simpl. apply lookup_old. now rewrite list_lookup_insert_ne. }
  pose proof (plays_first 0 w1 q g Hq1) as Hrun2.
  exists w1. eexists. exists (length (heap w)), (length (heap w1)).
  split; [exact Hrun1 | ].
  split; [exact Hq1 | ].
  split; [exact Hrun2 | ].
  cbn [heap stdout].
  assert (Hlen1 : length (heap w1) = S (length (heap w))).
  { simpl. rewrite length_app, length_insert. simpl. lia. }
  split.
  { apply lookup_old. rewrite list_lookup_insert_ne by congruence.
    simpl. apply lookup_old, list_lookup_insert_eq, Hplt. }
  split.
  { apply lookup_old, list_lookup_insert_eq. lia. }
  split; [lia | ].
  split.
  { rewrite count_real_videos_alloc, (count_real_videos_store _ _ _ _ _ _ Hq1).
    simpl heap.
    rewrite count_real_videos_alloc, (count_real_videos_store _ _ _ _ _ _ Hp).
    simpl. lia. }
  simpl. now rewrite <- !app_assoc.
Qed.

(** Two proxies for the lecture's file. *)
Lemma Proxy_proxies_are_independent_witness :
  let w := {| heap := [VideoProxy "example.mp4" None;
                       VideoProxy "example.mp4" None];
              stdout := [] |} in
  exists w1 w2 r r',
    plays 2 0 w = (Ok tt, w1) /\
    heap w1 !! 1 = Some (VideoProxy "example.mp4" None) /\
    plays 1 1 w1 = (Ok tt, w2) /\
    heap w2 !! 0 = Some (VideoProxy "example.mp4" (Some r)) /\
    heap w2 !! 1 = Some (VideoProxy "example.mp4" (Some r')) /\
    r <> r' /\
    count_real_videos (heap w2) = 2 + count_real_videos (heap w) /\
    stdout w2 =
      stdout w ++ (loading_line "example.mp4"
                     :: repeat (playing_line "example.mp4") 2)
               ++ [loading_line "example.mp4"; playing_line "example.mp4"].
Proof.
  intros w.
  apply (Proxy_proxies_are_independent w 0 1 "example.mp4" "example.mp4" 1);
    [lia | reflexivity | reflexivity].
Defined.

End ProxyMore.

Section AccessProxyMore.
Import Py AccessProxy.

Lemma request_proxies (n : nat) :
  forall out,
    request (proxies n) out =
    (Ok tt,
     out ++ repeat check_line n ++ [handling_line] ++ repeat log_line n).
Proof.
  induction n as [ | n IH]; intros out; simpl.
  - reflexivity.
  - unfold _check_access, _log_access, print. unfold_M.
    rewrite IH. f_equal.
    rewrite (repeat_cons n log_line), <- !app_assoc. reflexivity.
Qed.

(** X11.  Proxies stack: through [n] proxies the request reaches the real
    subject exactly once; the console gets [n] access checks, then the real
    subject's line, then [n] log lines, after what it held; access is never
    refused. *)
Theorem AccessProxy_stacked (n : nat) (out : list string) :
  client_code (proxies n) out =
  (Ok tt, out ++ repeat check_line n ++ [handling_line] ++ repeat log_line n).
Proof. apply request_proxies. Qed.

End AccessProxyMore.

(** ** Decorator: stacks of add-ons *)

Section DecoratorMore.
Import Py Decorator.
Context {W B : Type} {HB : Beverage W B}.

Lemma append_cons (a : Ascii.ascii) (s t : string) :
  (String a s ++ t)%string = String a (s ++ t)%string.
Proof. reflexivity. Qed.

Lemma append_nil_r (s : string) : (s ++ "")%string = s.
Proof.
  induction s as [ | a s IH]; [reflexivity | ].
  now rewrite append_cons, IH.
Qed.

Lemma append_assoc (s t u : string) :
  (s ++ (t ++ u))%string = ((s ++ t) ++ u)%string.
Proof.
  induction s as [ | a s IH]; [reflexivity | ].
  now rewrite !append_cons, IH.
Qed.

Lemma join_snoc (l : list string) (x : string) :
  join (l ++ [x]) = (join l ++ x)%string.
Proof.
  unfold join. induction l as [ | y l IH]; simpl.
  - now rewrite append_nil_r.
  - now rewrite IH, append_assoc.
Qed.

Lemma description_decorate (chain : list addon) (b : B) (w : W) :
  @description W _ (Stack_Beverage W B HB (length chain)) (decorate chain b) w =
  match description b w with
  | (Ok d, w') => (Ok (d ++ join (map suffix (rev chain)))%string, w')
  | (Raise e, w') => (Raise e, w')
  end.
Proof.
  induction chain as [ | cls chain IH]; simpl.
  - destruct (description b w) as [[d | e] w']; [ | reflexivity].
    unfold join; simpl. now rewrite append_nil_r.
  - pose proof (@AddOn_description_spec W (Stack (length chain) B)
                  (Stack_Beverage W B HB (length chain)) cls
                  (decorate chain b) w) as Hspec.
    simpl in Hspec. rewrite Hspec, IH.
    destruct (description b w) as [[d | e] w']; [ | reflexivity].
    rewrite map_app. change (map suffix [cls]) with [suffix cls].
    rewrite join_snoc, append_assoc. now destruct cls.
Qed.

Lemma cost_decorate (chain : list addon) (b : B) (w : W) :
  @cost W _ (Stack_Beverage W B HB (length chain)) (decorate chain b) w =
  match cost b w with
  | (Ok c, w') =>
      (foldr (fun cls total => bind total (fun x => add x (price cls)))
         (Ok c) chain, w')
  | (Raise e, w') => (Raise e, w')
  end.
Proof.
  induction chain as [ | cls chain IH]; simpl.
  - now destruct (cost b w) as [[c | e] w'].
  - pose proof (@AddOn_cost_spec W (Stack (length chain) B)
                  (Stack_Beverage W B HB (length chain)) cls
                  (decorate chain b) w) as Hspec.
    simpl in Hspec. rewrite Hspec, IH.
    destruct (cost b w) as [[c | e] w']; [ | reflexivity].
    destruct (foldr _ (Ok c) chain) as [x | e]; simpl; [ | reflexivity].
    now destruct cls.
Qed.

(** X12.  Under any stack of add-ons (listed from the outermost in), the
    description is the wrapped beverage's description followed by the
    add-ons' names from the innermost out, and the cost is the wrapped
    beverage's cost with the add-ons' prices added from the innermost out;
    the wrapped beverage's method runs once, and when it raises, so does
    the stack. *)
Theorem Decorator_stack (chain : list addon) (b : B) (w : W) :
  @description W _ (Stack_Beverage W B HB (length chain)) (decorate chain b) w =
    match description b w with
    | (Ok d, w') => (Ok (d ++ join (map suffix (rev chain)))%string, w')
    | (Raise e, w') => (Raise e, w')
    end /\
  @cost W _ (Stack_Beverage W B HB (length chain)) (decorate chain b) w =
    match cost b w with
    | (Ok c, w') =>
        (foldr (fun cls total => bind total (fun x => add x (price cls)))
           (Ok c) chain, w')
    | (Raise e, w') => (Raise e, w')
    end.
Proof. split; [apply description_decorate | apply cost_decorate]. Qed.

End DecoratorMore.

Section DecoratorStackExample.
Import Py Decorator.

(** Mocha over milk over the lecture's espresso. *)
Lemma Decorator_stack_witness :
  @description unit _ (Stack_Beverage unit Espresso _ 2)
    (decorate [MochaDecorator; MilkDecorator] Espresso_call) tt
    = (Ok "Espresso, Milk, Mocha"%string, tt) /\
  @cost unit _ (Stack_Beverage unit Espresso _ 2)
    (decorate [MochaDecorator; MilkDecorator] Espresso_call) tt
    = (Ok (NFloat 3.24), tt).
Proof.
  destruct (Decorator_stack (W := unit) (HB := Espresso_Beverage unit)
              [MochaDecorator; MilkDecorator] Espresso_call tt) as [Hd Hc].
  split; [exact Hd | exact Hc].
Defined.

End DecoratorStackExample.

(** ** Prototype: the whole instance is copied *)

Section PrototypeMore.
Import Py Prototype.

(** X13.  [clone] copies the whole instance, not only name and price:
    every attribute reads on the clone as on the source, an absent one
    raising [AttributeError] on both; a clone can be cloned in turn, with
    the same result; each call adds one object and leaves every existing
    object as it was. *)
Theorem Prototype_clone_whole_instance (h : heap) (p : loc) :
  is_Some (h !! p) ->
  exists c h' c2 h'',
    clone p h = (Ok c, h') /\
    clone c h' = (Ok c2, h'') /\
    length h' = S (length h) /\
    length h'' = S (length h') /\
    c <> p /\ c2 <> p /\ c2 <> c /\
    (forall a,
       fst (getattr c a h'') = fst (getattr p a h) /\
       fst (getattr c2 a h'') = fst (getattr p a h)) /\
    (forall q, q < length h -> h'' !! q = h !! q).
Proof.
  intros [o Hp].
  assert (Hlt : p < length h) by (eapply lookup_lt_Some; eassumption).
  exists (length h), (h ++ [o]), (length (h ++ [o])), ((h ++ [o]) ++ [o]).
  split; [now apply clone_spec | ].
  split; [apply clone_spec, lookup_last | ].
  rewrite !length_app. simpl.
  split; [lia | ]. split; [lia | ]. split; [lia | ]. split; [lia | ].
  split; [lia | ]. split.
  - intros a. rewrite !getattr_spec. simpl.
    rewrite (lookup_old _ _ _ _ (lookup_last h o)).
    replace (length h + 1) with (length (h ++ [o]))
      by (rewrite length_app; reflexivity).
    rewrite lookup_last, Hp. now split.
  - intros q Hq. now rewrite !lookup_app_l by (rewrite ?length_app; lia).
Qed.

(** The lecture's product, cloned twice. *)
Lemma Prototype_clone_whole_instance_witness :
  let h := [<["price" := VNum (NInt 500)]> (<["name" := VStr "Smartphone"]> ∅)]
  in
  exists c h' c2 h'',
    clone 0 h = (Ok c, h') /\
    clone c h' = (Ok c2, h'') /\
    length h' = S (length h) /\
    length h'' = S (length h') /\
    c <> 0 /\ c2 <> 0 /\ c2 <> c /\
    (forall a,
       fst (getattr c a h'') = fst (getattr 0 a h) /\
       fst (getattr c2 a h'') = fst (getattr 0 a h)) /\
    (forall q, q < length h -> h'' !! q = h !! q).
Proof.
  intros h. apply (Prototype_clone_whole_instance h 0).
  eexists. reflexivity.
Defined.

End PrototypeMore.

(** ** Factory Method: hiring and the staff already hired *)

Section FactoryMore.
Import Py Factory.

Lemma hiring_appends (h : heap) (m : manager) (n : value) (s : number) :
  exists e,
    make_employee m n s h = (Ok (length h), h ++ [e]) /\
    (class e = FullTimeEmployee <-> m = HRManager).
Proof.
  destruct m; simpl.
  - eexists. split; [reflexivity | ]. simpl. now split.
  - destruct (lt s (NInt 50000)); eexists; (split; [reflexivity | ]);
      simpl; split; discriminate.
Qed.

(** X14.  Hiring adds one employee and disturbs nobody: for every employee
    hired before, [calculate_bonus] and [type_name] answer as they did;
    and the new employee's [type_name] is "FullTimeEmployee" exactly when
    the manager is the [HRManager], whatever the salary. *)
Theorem Factory_hiring_frame (h : heap) (m : manager) (n : value) (s : number) :
  exists l h',
    make_employee m n s h = (Ok l, h') /\
    length h' = S (length h) /\
    (forall q,
       q < length h ->
       fst (calculate_bonus q h') = fst (calculate_bonus q h) /\
       fst (type_name q h') = fst (type_name q h)) /\
    (fst (type_name l h') = Ok "FullTimeEmployee"%string <-> m = HRManager).
Proof.
  destruct (hiring_appends h m n s) as (e & Hhire & Hclass).
  exists (length h), (h ++ [e]).
  split; [exact Hhire | ].
  split; [rewrite length_app; simpl; lia | ].
  split.
  - intros q Hq. unfold calculate_bonus, type_name, deref. unfold_M.
    rewrite lookup_app_l by exact Hq.
    destruct (h !! q) as [e0 | ]; simpl; [ | now split].
    split; destruct (class e0); reflexivity.
  - unfold type_name, deref. unfold_M. rewrite lookup_last.
    rewrite <- Hclass. destruct (class e); simpl; split; congruence.
Qed.

End FactoryMore.

(** ** Adapter: what an adapter can adapt *)

Section AdapterMore.
Import Py Adapter.

(** X15.  The adapters' constructors accept any object and never fail; the
    check comes with the request.  [Adapter(x).request()] answers with the
    adaptee's response when [x] is an [Adaptee] and raises
    [AttributeError] for every other object of the lecture;
    [SocketAdapter(x).request_power()] converts the power of a
    [EuropeanSocket] and raises [AttributeError] otherwise.  In particular
    an adapter of an adapter raises.  The heap is not changed by a
    request. *)
Theorem Adapter_adapts_only_adaptee (h : heap) (x : loc) (o : object) :
  h !! x = Some o ->
  exists a s h2,
    mbind (Adapter_call x)
      (fun a => mbind (SocketAdapter_call x) (fun s => ret (a, s))) h
      = (Ok (a, s), h2) /\
    request a h2 =
      (match o with
       | Adaptee => Ok (VStr "Response from Adaptee")
       | _ => Raise AttributeError
       end, h2) /\
    request_power s h2 =
      (match o with
       | EuropeanSocket => Ok (VStr "Converted European power to US power")
       | _ => Raise AttributeError
       end, h2) /\
    (forall h3 aa,
       Adapter_call a h2 = (Ok aa, h3) ->
       request aa h3 = (Raise AttributeError, h3)) /\
    (forall h3 ss,
       SocketAdapter_call s h2 = (Ok ss, h3) ->
       request_power ss h3 = (Raise AttributeError, h3)).
Proof.
  intros Hx.
  exists (length h), (length (h ++ [Adapter x])),
    ((h ++ [Adapter x]) ++ [SocketAdapter x]).
  split; [reflexivity | ].
  assert (Ha : ((h ++ [Adapter x]) ++ [SocketAdapter x]) !! length h
               = Some (Adapter x)) by apply lookup_old, lookup_last.
  assert (Hs : ((h ++ [Adapter x]) ++ [SocketAdapter x])
                 !! length (h ++ [Adapter x]) = Some (SocketAdapter x))
    by apply lookup_last.
  assert (Hx' : ((h ++ [Adapter x]) ++ [SocketAdapter x]) !! x = Some o)
    by now apply lookup_old, lookup_old.
  split.
  { unfold request, specific_request, deref. unfold_M.
    rewrite Ha. simpl. rewrite Hx'. now destruct o. }
  split.
  { unfold request_power, provide_european_power, deref. unfold_M.
    rewrite Hs. simpl. rewrite Hx'. now destruct o. }
  split.
  - intros h3 aa [= <- <-].
    unfold request, specific_request, deref. unfold_M.
    rewrite lookup_last. simpl.
    now rewrite (lookup_old _ _ _ _ Ha).
  - intros h3 ss [= <- <-].
    unfold request_power, provide_european_power, deref. unfold_M.
    rewrite lookup_last. simpl.
    now rewrite (lookup_old _ _ _ _ Hs).
Qed.

(** The lecture's socket and an adaptee, each tried with both adapters. *)
Lemma Adapter_adapts_only_adaptee_witness :
  let h := [EuropeanSocket; Adaptee] in
  (exists a s h2,
     mbind (Adapter_call 0)
       (fun a => mbind (SocketAdapter_call 0) (fun s => ret (a, s))) h
       = (Ok (a, s), h2) /\
     request a h2 = (Raise AttributeError, h2) /\
     request_power s h2
       = (Ok (VStr "Converted European power to US power"), h2)) /\
  (exists a s h2,
     mbind (Adapter_call 1)
       (fun a => mbind (SocketAdapter_call 1) (fun s => ret (a, s))) h
       = (Ok (a, s), h2) /\
     request a h2 = (Ok (VStr "Response from Adaptee"), h2) /\
     request_power s h2 = (Raise AttributeError, h2)).
Proof.
  intros h. split.
  - destruct (Adapter_adapts_only_adaptee h 0 EuropeanSocket eq_refl)
      as (a & s & h2 & Hcalls & Hreq & Hpow & _).
    now exists a, s, h2.
  - destruct (Adapter_adapts_only_adaptee h 1 Adaptee eq_refl)
      as (a & s & h2 & Hcalls & Hreq & Hpow & _).
    now exists a, s, h2.
Defined.

End AdapterMore.
